(** * dfVFS: find specifications, the file system searcher, the AES
    decrypter and the TSK partition helper

    A shallow embedding of
      - dfvfs/helpers/file_system_searcher.py (FindSpec, FileSystemSearcher),
      - dfvfs/encryption/aes_decrypter.py (AESDecrypter),
      - pyvfs/lib/tsk_partition.py (GetTSKVsPartByPathSpec),
    followed by the properties of these functions.

    Python integers are [Z]; text is [string]; byte strings are
    [list byte]; [None]-able values are [option]; a call that may raise
    returns a [result]; a generator consumed to its end is a [run]: what it
    yielded and how it ended.  Objects the code mutates in place (the find
    specifications) live in a store and are passed around by reference. *)

From Stdlib Require Import ZArith Lia Bool List String Ascii.
From Stdlib.Strings Require Import Byte.
From stdpp Require Import base list.
Import ListNotations.
Local Open Scope Z_scope.
Set Warnings "-register-all".

(** ** Python values and control flow *)

Module Py.

(** The exceptions the modelled code raises or handles: built-in ones, and
    [AccessError] and [PathSpecError] of [dfvfs.lib.errors].
    [BackEndError] stands for any other error of a back end. *)
Inductive exn : Type :=
| AttributeError
| IndexError
| TypeError
| ValueError
| ZeroDivisionError
| UnboundLocalError
| OverflowError
| RuntimeError
| MemoryError
| AccessError
| PathSpecError
| BackEndError.

(** The built-in errors a call into a library can raise besides the error
    the calling code handles. *)
Inductive builtin_error : Type :=
| builtin_OverflowError
| builtin_RuntimeError
| builtin_MemoryError.

Definition exn_of_builtin (e : builtin_error) : exn :=
  match e with
  | builtin_OverflowError => OverflowError
  | builtin_RuntimeError => RuntimeError
  | builtin_MemoryError => MemoryError
  end.

Inductive result (A : Type) : Type :=
| Ret (a : A)
| Raise (e : exn).
Arguments Ret {A} a.
Arguments Raise {A} e.

Definition bind {A B : Type} (m : result A) (k : A -> result B) : result B :=
  match m with
  | Ret a => k a
  | Raise e => Raise e
  end.

(** A generator run to exhaustion: the values it yielded, in order, and the
    exception that ended it ([None] when it ended by returning). *)
Record run (A : Type) : Type := mkRun {
  yielded : list A;
  ending : option exn
}.
Arguments mkRun {A} yielded ending.
Arguments yielded {A} r.
Arguments ending {A} r.

(** [len(s)] *)
Definition len {A : Type} (s : list A) : Z := Z.of_nat (length s).

(** The start or stop of a slice: a negative index counts from the end,
    and the result is clipped to [0, len(s)]. *)
Definition slice_index {A : Type} (s : list A) (i : Z) : nat :=
  let n := len s in
  let j := if i <? 0 then i + n else i in
  Z.to_nat (Z.max 0 (Z.min j n)).

(** [s[i:]] *)
Definition slice_from {A : Type} (s : list A) (i : Z) : list A :=
  drop (slice_index s i) s.

(** [s[:i]] *)
Definition slice_to {A : Type} (s : list A) (i : Z) : list A :=
  take (slice_index s i) s.

(** [s.startswith(prefix)] *)
Fixpoint startswith (s prefix : string) : bool :=
  match prefix, s with
  | EmptyString, _ => true
  | String c p, String d t => Ascii.eqb c d && startswith t p
  | String _ _, EmptyString => false
  end.

(** [s[n:]] on text, for [0 <= n]. *)
Fixpoint string_drop (n : nat) (s : string) : string :=
  match n, s with
  | O, _ => s
  | S k, EmptyString => EmptyString
  | S k, String _ t => string_drop k t
  end.

(** [c.lower()] on one character of a byte string: only A-Z change. *)
Definition ascii_lower (c : ascii) : ascii :=
  let n := nat_of_ascii c in
  if (Nat.leb 65 n && Nat.leb n 90)%bool then ascii_of_nat (n + 32) else c.

(** [s.lower()] on a byte string. *)
Fixpoint lower_ascii (s : string) : string :=
  match s with
  | EmptyString => EmptyString
  | String c t => String (ascii_lower c) (lower_ascii t)
  end.

(** The truth value of an optional boolean attribute: [None] is false. *)
Definition truthy (b : option bool) : bool :=
  match b with
  | Some true => true
  | _ => false
  end.

End Py.

Import Py.

Notation "'do' x <- m ; k" := (Py.bind m (fun x => k))
  (at level 10, x name, m at level 100, k at level 200).

(** ** What the searcher is given: path specifications, file entries,
    file systems and the regular expression library *)

(** Modelled from the spec: a path specification ([path.PathSpec], not
    among the sources), "a format-specific attribute bag (e.g. location,
    start_offset, ..., part_index)".  These are the attributes the modelled
    code reads; an attribute that is not set is [None]. *)
Record PathSpec : Type := mkPathSpec {
  location : option string;
  part_index : option Z;
  start_offset : option Z
}.

(** Modelled from the spec: the file entry types of
    [dfvfs.lib.definitions] (not among the sources), the "allowed entry
    kinds: device/directory/regular/link/pipe/socket". *)
Inductive file_entry_type : Type :=
| FILE_ENTRY_TYPE_DEVICE
| FILE_ENTRY_TYPE_DIRECTORY
| FILE_ENTRY_TYPE_FILE
| FILE_ENTRY_TYPE_LINK
| FILE_ENTRY_TYPE_PIPE
| FILE_ENTRY_TYPE_SOCKET.

Definition file_entry_type_eqb (a b : file_entry_type) : bool :=
  match a, b with
  | FILE_ENTRY_TYPE_DEVICE, FILE_ENTRY_TYPE_DEVICE
  | FILE_ENTRY_TYPE_DIRECTORY, FILE_ENTRY_TYPE_DIRECTORY
  | FILE_ENTRY_TYPE_FILE, FILE_ENTRY_TYPE_FILE
  | FILE_ENTRY_TYPE_LINK, FILE_ENTRY_TYPE_LINK
  | FILE_ENTRY_TYPE_PIPE, FILE_ENTRY_TYPE_PIPE
  | FILE_ENTRY_TYPE_SOCKET, FILE_ENTRY_TYPE_SOCKET => true
  | _, _ => false
  end.

(** [x in types] *)
Definition type_in (x : file_entry_type) (types : list file_entry_type) : bool :=
  existsb (file_entry_type_eqb x) types.

(** Modelled from the spec: a file entry ([vfs.FileEntry], not among the
    sources), which "exposes name, path_spec, IsAllocated(),
    IsDirectory()/IsFile()/IsDevice()/IsLink()/IsPipe()/IsSocket(), and a
    lazy sequence of child entries; child enumeration may fail".  Iterating
    [sub_file_entries] produces the listed entries and then either stops
    ([sub_file_entries_error] is [None]) or raises the given error. *)
Inductive FileEntry : Type := mkFileEntry {
  name : string;
  path_spec : PathSpec;
  IsAllocated : bool;
  IsDevice : bool;
  IsDirectory : bool;
  IsFile : bool;
  IsLink : bool;
  IsPipe : bool;
  IsSocket : bool;
  sub_file_entries : list FileEntry;
  sub_file_entries_error : option exn
}.

(** Modelled from the spec: the type indicators of
    [dfvfs.lib.definitions] (not among the sources) that the searcher
    tells apart, those of "a plain OS file, or a synthetic in-memory
    root"; every other indicator is [TYPE_INDICATOR_OTHER]. *)
Inductive type_indicator_t : Type :=
| TYPE_INDICATOR_FAKE
| TYPE_INDICATOR_OS
| TYPE_INDICATOR_OTHER (tag : string).

(** Modelled from the spec: a file system ([vfs.FileSystem], not among
    the sources), which "exposes SplitPath(path) -> segments,
    GetRootFileEntry(), GetFileEntryByPathSpec(path_spec), and a
    type_indicator". *)
Record FileSystem : Type := mkFileSystem {
  type_indicator : type_indicator_t;
  fs_SplitPath : string -> list string;
  fs_GetRootFileEntry : FileEntry;
  fs_GetFileEntryByPathSpec : PathSpec -> option FileEntry
}.

(** What [re.compile] does: it returns a pattern object, raises
    [sre_constants.error] (the error [Matches] handles), or raises a
    built-in error such as [OverflowError] for a repetition count that is
    too large. *)
Inductive compiled (pattern : Type) : Type :=
| Compiled (p : pattern)
| sre_constants_error
| CompileRaises (e : builtin_error).
Arguments Compiled {pattern} p.
Arguments sre_constants_error {pattern}.
Arguments CompileRaises {pattern} e.

(** The [re] module: its flags; [re_compile p flags]; and
    [pattern_match p s], which tells whether [p.match(s)] is a match
    object. *)
Class RegexEngine : Type := {
  pattern : Type;
  re_IGNORECASE : Z;
  re_DOTALL : Z;
  re_UNICODE : Z;
  re_compile : string -> Z -> compiled pattern;
  pattern_match : pattern -> string -> bool
}.

(** Text: [lower s] is [s.lower()], which folds every cased letter of the
    text, and lower-casing twice is lower-casing once. *)
Class Text : Type := {
  lower : string -> string;
  lower_idempotent : forall s, lower (lower s) = lower s
}.

(** ** FindSpec *)

Module FindSpec.
Section WithRegex.
Context {RE : RegexEngine} {TX : Text}.

(** One element of [_location_segments]: text, or the compiled pattern
    that [Matches] stored in its place. *)
Inductive segment : Type :=
| SegStr (s : string)
| SegPat (p : pattern).

(** The [location] or [location_regex] argument: a string, a list of
    segments, or a value of another type. *)
Inductive location_arg : Type :=
| LocationString (s : string)
| LocationList (l : list string)
| LocationUnsupported.

Record t : Type := mk {
  _file_entry_types : option (list file_entry_type);
  _is_allocated : option bool;
  _is_case_sensitive : bool;
  _is_regex : option bool;
  _location : option string;
  _location_regex : option string;
  _location_segments : option (list segment);
  _number_of_location_segments : Z
}.

Definition set_location_segments (self : t) (segs : option (list segment)) : t :=
  mk (_file_entry_types self) (_is_allocated self) (_is_case_sensitive self)
     (_is_regex self) (_location self) (_location_regex self)
     segs (_number_of_location_segments self).

Definition set_number_of_location_segments (self : t) (n : Z) : t :=
  mk (_file_entry_types self) (_is_allocated self) (_is_case_sensitive self)
     (_is_regex self) (_location self) (_location_regex self)
     (_location_segments self) n.

(** [FindSpec(file_entry_types, is_allocated, location, location_regex,
    case_sensitive)].  A list given as location is kept as the segment
    list; the find specification holds it by value here, so a list object
    that several find specifications share, and that [Matches] of one
    writes for all, is not followed from one to the other: what is proved
    of [Matches] below is proved for the state the segment list is in when
    [Matches] is called. *)
Definition __init__ (file_entry_types : option (list file_entry_type))
    (is_allocated : option bool) (location location_regex : option location_arg)
    (case_sensitive : bool) : result t :=
  match location, location_regex with
  | Some _, Some _ => Raise ValueError
  | Some (LocationString s), _ =>
      Ret (mk file_entry_types is_allocated case_sensitive (Some false)
              (Some s) None None 0)
  | Some (LocationList l), _ =>
      Ret (mk file_entry_types is_allocated case_sensitive (Some false)
              None None (Some (map SegStr l)) 0)
  | Some LocationUnsupported, _ => Raise TypeError
  | None, Some (LocationString s) =>
      Ret (mk file_entry_types is_allocated case_sensitive (Some true)
              None (Some s) None 0)
  | None, Some (LocationList l) =>
      Ret (mk file_entry_types is_allocated case_sensitive (Some true)
              None None (Some (map SegStr l)) 0)
  | None, Some LocationUnsupported => Raise TypeError
  | None, None =>
      Ret (mk file_entry_types is_allocated case_sensitive None
              None None None 0)
  end.

(** [FindSpec()]: every argument at its default. *)
Definition default : result t := __init__ None (Some true) None None true.

Definition _CheckIsAllocated (self : t) (file_entry : FileEntry) : bool :=
  match _is_allocated self with
  | Some b => Bool.eqb b (IsAllocated file_entry)
  | None => false
  end.

(** The shape shared by [_CheckIsDevice] ... [_CheckIsSocket]. *)
Definition check_type (self : t) (ty : file_entry_type) (is_ty : bool) : bool :=
  match _file_entry_types self with
  | Some types => if negb (type_in ty types) then false else is_ty
  | None => is_ty
  end.

Definition _CheckIsDevice (self : t) (file_entry : FileEntry) : bool :=
  check_type self FILE_ENTRY_TYPE_DEVICE (IsDevice file_entry).

Definition _CheckIsDirectory (self : t) (file_entry : FileEntry) : bool :=
  check_type self FILE_ENTRY_TYPE_DIRECTORY (IsDirectory file_entry).

Definition _CheckIsFile (self : t) (file_entry : FileEntry) : bool :=
  check_type self FILE_ENTRY_TYPE_FILE (IsFile file_entry).

Definition _CheckIsLink (self : t) (file_entry : FileEntry) : bool :=
  check_type self FILE_ENTRY_TYPE_LINK (IsLink file_entry).

Definition _CheckIsPipe (self : t) (file_entry : FileEntry) : bool :=
  check_type self FILE_ENTRY_TYPE_PIPE (IsPipe file_entry).

Definition _CheckIsSocket (self : t) (file_entry : FileEntry) : bool :=
  check_type self FILE_ENTRY_TYPE_SOCKET (IsSocket file_entry).

Definition _CheckFileEntryType (self : t) (file_entry : FileEntry) : bool :=
  _CheckIsDevice self file_entry || _CheckIsDirectory self file_entry ||
  _CheckIsFile self file_entry || _CheckIsLink self file_entry ||
  _CheckIsPipe self file_entry || _CheckIsSocket self file_entry.

Definition AtMaximumDepth (self : t) (search_depth : Z) : bool :=
  match _location_segments self with
  | Some _ =>
      if search_depth =? _number_of_location_segments self then true else false
  | None => false
  end.

Definition Initialize (self : t) (file_system : FileSystem) : t :=
  let self1 :=
    match _location self with
    | Some l =>
        set_location_segments self (Some (map SegStr (fs_SplitPath file_system l)))
    | None =>
        match _location_regex self with
        | Some l =>
            set_location_segments self
              (Some (map SegStr (fs_SplitPath file_system l)))
        | None => self
        end
    end in
  match _location_segments self1 with
  | Some segs => set_number_of_location_segments self1 (len segs)
  | None => self1
  end.

(** The flags [Matches] compiles a segment with. *)
Definition regex_flags (self : t) : Z :=
  let flags := Z.lor re_DOTALL re_UNICODE in
  if negb (_is_case_sensitive self) then Z.lor flags re_IGNORECASE else flags.

(** [r'^{0:s}$'.format(segment_name)] *)
Definition anchored (segment_name : string) : string :=
  ("^" ++ segment_name ++ "$")%string.

(** Lines 264-287 of [Matches]: the value of [segment_name] and the find
    specification after the segment was compiled or lower-cased in place.
    [Ret None] is the [return False] of a segment whose compilation raises
    [sre_constants.error]; another error of [re.compile] is not handled. *)
Definition segment_name_at (self : t) (segs : list segment) (search_depth : Z)
    : result (option (segment * t)) :=
  if search_depth =? 0 then Ret (Some (SegStr "", self))
  else
    let i := Z.to_nat (search_depth - 1) in
    match segs !! i with
    | None => Raise IndexError
    | Some segment_name =>
        if truthy (_is_regex self) then
          match segment_name with
          | SegStr s =>
              match re_compile (anchored s) (regex_flags self) with
              | sre_constants_error => Ret None
              | CompileRaises e => Raise (exn_of_builtin e)
              | Compiled p =>
                  Ret (Some (SegPat p,
                    set_location_segments self (Some (<[i := SegPat p]> segs))))
              end
          | SegPat p => Ret (Some (segment_name, self))
          end
        else if negb (_is_case_sensitive self) then
          match segment_name with
          | SegStr s =>
              Ret (Some (SegStr (lower s),
                set_location_segments self (Some (<[i := SegStr (lower s)]> segs))))
          | SegPat _ => Raise AttributeError
          end
        else Ret (Some (segment_name, self))
    end.

(** [segment_name != text]: a compiled pattern never equals text. *)
Definition segment_differs (segment_name : segment) (text : string) : bool :=
  match segment_name with
  | SegStr s => negb (String.eqb s text)
  | SegPat _ => true
  end.

(** Lines 289-298 of [Matches]: [Ret false] is one of the three
    [return False]. *)
Definition name_check (self : t) (segment_name : segment)
    (file_entry : FileEntry) (search_depth : Z) : result bool :=
  if (0 <? search_depth) && truthy (_is_regex self) then
    match segment_name with
    | SegPat p => Ret (pattern_match p (name file_entry))
    | SegStr _ => Raise AttributeError
    end
  else if (search_depth =? 0) || _is_case_sensitive self then
    Ret (negb (segment_differs segment_name (name file_entry)))
  else
    Ret (negb (segment_differs segment_name (lower (name file_entry)))).

(** Lines 303-309 of [Matches]. *)
Definition final_checks (self : t) (file_entry : FileEntry) : bool :=
  if negb (_CheckFileEntryType self file_entry) then false
  else if negb (_CheckIsAllocated self file_entry) then false
  else true.

(** [Matches(file_entry, search_depth)]: what the call returns or raises,
    and the find specification after the call. *)
Definition Matches (self : t) (file_entry : FileEntry) (search_depth : Z)
    : result bool * t :=
  match _location_segments self with
  | Some segs =>
      if (search_depth <? 0) || (_number_of_location_segments self <? search_depth)
      then (Ret false, self)
      else
        match segment_name_at self segs search_depth with
        | Raise e => (Raise e, self)
        | Ret None => (Ret false, self)
        | Ret (Some (segment_name, self')) =>
            match name_check self' segment_name file_entry search_depth with
            | Raise e => (Raise e, self')
            | Ret false => (Ret false, self')
            | Ret true =>
                if negb (search_depth =? _number_of_location_segments self')
                then (Ret false, self')
                else (Ret (final_checks self' file_entry), self')
            end
        end
  | None => (Ret (final_checks self file_entry), self)
  end.

(** A segment that is still text. *)
Definition is_text (x : segment) : Prop :=
  match x with
  | SegStr _ => True
  | SegPat _ => False
  end.

(** The find specifications the searcher works with: built by [__init__]
    with a location or a location_regex, initialized against a file system
    (once or again), and then used by any number of [Matches] calls of
    their own.  The segment list is written by these calls only: a find
    specification whose list object is also the list of another one, which
    writes it, is not [ready]; [well_formed] below speaks of the list as
    it is, whoever wrote it. *)
Inductive ready : t -> Prop :=
| ready_Initialize types alloc loc loc_regex cs fs s :
    __init__ types alloc loc loc_regex cs = Ret s ->
    loc <> None \/ loc_regex <> None ->
    ready (Initialize s fs)
| ready_Initialize_again s fs :
    ready s -> ready (Initialize s fs)
| ready_Matches s file_entry search_depth :
    ready s -> ready (snd (Matches s file_entry search_depth)).

(** The state [Initialize] and the [Matches] calls of a find specification
    leave it in, and so what holds of every ready find specification: the
    segments are set, their number is the length of the list, and the
    segments of a literal location are text. *)
Definition well_formed (self : t) : Prop :=
  exists segs,
    _location_segments self = Some segs /\
    _number_of_location_segments self = len segs /\
    (truthy (_is_regex self) = false -> Forall is_text segs).

(** [memoized self a b]: [b] is the segment [a] of [self], or what
    [Matches] stores in its place: the pattern [a] compiles to, or text
    with the lower case of [a]. *)
Definition memoized (self : t) (a b : segment) : Prop :=
  a = b \/
  (truthy (_is_regex self) = true /\
   exists text p, a = SegStr text /\ b = SegPat p /\
                  re_compile (anchored text) (regex_flags self) = Compiled p) \/
  (truthy (_is_regex self) = false /\ _is_case_sensitive self = false /\
   exists text text', a = SegStr text /\ b = SegStr text' /\
                      lower text' = lower text).

(** [same_but_memoized s s']: [s'] is [s] with some of its segments
    memoized. *)
Definition same_but_memoized (s s' : t) : Prop :=
  _file_entry_types s' = _file_entry_types s /\
  _is_allocated s' = _is_allocated s /\
  _is_case_sensitive s' = _is_case_sensitive s /\
  _is_regex s' = _is_regex s /\
  _number_of_location_segments s' = _number_of_location_segments s /\
  match _location_segments s, _location_segments s' with
  | Some l, Some l' => Forall2 (memoized s) l l'
  | None, None => True
  | _, _ => False
  end.

(** The find specification after a sequence of [Matches] calls, each on a
    file entry at a depth. *)
Definition after_calls (self : t) (calls : list (FileEntry * Z)) : t :=
  fold_left (fun s call => snd (Matches s (fst call) (snd call))) calls self.

(** The name of a file entry against the segment of a depth: at depth 0
    the name is empty; below, the name equals the segment (both in lower
    case when the find specification is not case sensitive), or the
    segment, compiled as an anchored pattern, matches the name. *)
Definition name_matches (self : t) (segs : list segment)
    (file_entry : FileEntry) (search_depth : Z) : bool :=
  if search_depth =? 0 then String.eqb "" (name file_entry)
  else
    match segs !! Z.to_nat (search_depth - 1) with
    | Some (SegStr text) =>
        if truthy (_is_regex self) then
          match re_compile (anchored text) (regex_flags self) with
          | Compiled p => pattern_match p (name file_entry)
          | sre_constants_error | CompileRaises _ => false
          end
        else if _is_case_sensitive self
        then String.eqb text (name file_entry)
        else String.eqb (lower text) (lower (name file_entry))
    | Some (SegPat p) =>
        if truthy (_is_regex self) then pattern_match p (name file_entry)
        else false
    | None => false
    end.

(** The built-in error, if any, that compiling the segment of a depth
    raises: [Matches] compiles the text of a location_regex segment when it
    reaches its depth, and handles [sre_constants.error] only. *)
Definition compile_raises_at (self : t) (segs : list segment)
    (search_depth : Z) : option builtin_error :=
  if search_depth <=? 0 then None
  else
    match segs !! Z.to_nat (search_depth - 1) with
    | Some (SegStr text) =>
        if truthy (_is_regex self) then
          match re_compile (anchored text) (regex_flags self) with
          | CompileRaises e => Some e
          | Compiled _ | sre_constants_error => None
          end
        else None
    | Some (SegPat _) | None => None
    end.

End WithRegex.
End FindSpec.

(** ** FileSystemSearcher *)

Module FileSystemSearcher.
Section WithRegex.
Context {RE : RegexEngine} {TX : Text}.

(** The find specification objects of one search, and references to them.
    [find_specs] and [sub_find_specs] hold references, so that what
    [Matches] stores in a find specification is seen through both lists. *)
Local Abbreviation store := (list FindSpec.t).
Local Abbreviation ref := nat.

Record t : Type := mk {
  _file_system : FileSystem;
  _mount_point : PathSpec
}.

Definition _PARENTLESS_TYPE_INDICATORS (ti : type_indicator_t) : bool :=
  match ti with
  | TYPE_INDICATOR_FAKE | TYPE_INDICATOR_OS => true
  | TYPE_INDICATOR_OTHER _ => false
  end.

(** [FileSystemSearcher(file_system, mount_point)].
    [mount_point_has_location] is [hasattr(mount_point, 'location')]: the
    attribute can be there with the value [None], which [location] of a
    path specification does not tell from its absence. *)
Definition __init__ (file_system : option FileSystem)
    (mount_point : option PathSpec) (mount_point_has_location : bool)
    : result t :=
  match file_system, mount_point with
  | Some fs, Some mp =>
      if _PARENTLESS_TYPE_INDICATORS (type_indicator fs) then
        if negb mount_point_has_location then Raise PathSpecError
        else Ret (mk fs mp)
      else Ret (mk fs mp)
  | _, _ => Raise ValueError
  end.

(** The first loop of [_FindInFileEntry] (lines 358-362): the path
    specifications yielded and, unless [Matches] raised, the final
    [sub_find_specs].  A reference always denotes an object of the store
    ([Find] makes both together); the [None] branch only makes the
    function total. *)
Fixpoint match_find_specs (file_entry : FileEntry) (search_depth : Z)
    (find_specs sub_find_specs : list ref) (st : store)
    : (list PathSpec * result (list ref)) * store :=
  match find_specs with
  | [] => (([], Ret sub_find_specs), st)
  | r :: rest =>
      match st !! r with
      | None => match_find_specs file_entry search_depth rest sub_find_specs st
      | Some find_spec =>
          let '(res, find_spec') :=
            FindSpec.Matches find_spec file_entry search_depth in
          let st' := <[r := find_spec']> st in
          match res with
          | Raise e => (([], Raise e), st')
          | Ret b =>
              let ys := if b then [path_spec file_entry] else [] in
              let sub' :=
                if negb (FindSpec.AtMaximumDepth find_spec' search_depth)
                then sub_find_specs ++ [r] else sub_find_specs in
              let '((ys', res'), st'') :=
                match_find_specs file_entry search_depth rest sub' st' in
              ((ys ++ ys', res'), st'')
          end
      end
  end.

(** [except errors.AccessError: pass] *)
Definition catch_AccessError (e : option exn) : option exn :=
  match e with
  | Some AccessError => None
  | _ => e
  end.

(** The loop over [file_entry.sub_file_entries] (lines 369-372): [visit]
    is the recursive call on one sub file entry, [subs_error] the error, if
    any, that ends the enumeration.  An exception of a visit ends the
    loop. *)
Definition for_sub_file_entries
    (visit : FileEntry -> store -> run PathSpec * store)
    (subs_error : option exn)
    : list FileEntry -> store -> run PathSpec * store :=
  fix loop (l : list FileEntry) (st : store) : run PathSpec * store :=
    match l with
    | [] => (mkRun [] subs_error, st)
    | sub_file_entry :: l' =>
        let '(r1, st') := visit sub_file_entry st in
        match ending r1 with
        | Some e => (r1, st')
        | None =>
            let '(r2, st'') := loop l' st' in
            (mkRun (yielded r1 ++ yielded r2) (ending r2), st'')
        end
    end.

(** [_FindInFileEntry(file_entry, find_specs, search_depth)], consumed to
    its end. *)
Fixpoint _FindInFileEntry (file_entry : FileEntry) (find_specs : list ref)
    (search_depth : Z) (st : store) {struct file_entry}
    : run PathSpec * store :=
  let '((ys, res), st1) :=
    match_find_specs file_entry search_depth find_specs [] st in
  match res with
  | Raise e => (mkRun ys (Some e), st1)
  | Ret sub_find_specs =>
      match sub_find_specs with
      | [] => (mkRun ys None, st1)
      | _ :: _ =>
          match file_entry with
          | mkFileEntry _ _ _ _ _ _ _ _ _ subs subs_error =>
              let '(rc, st2) :=
                for_sub_file_entries
                  (fun sub_file_entry =>
                     _FindInFileEntry sub_file_entry sub_find_specs
                       (search_depth + 1))
                  subs_error subs st1 in
              (mkRun (ys ++ yielded rc) (catch_AccessError (ending rc)), st2)
          end
      end
  end.

(** [find_specs.append(x)]: [None] has no [append]. *)
Definition append {A : Type} (l : option (list A)) (x : A) : result (list A) :=
  match l with
  | None => Raise AttributeError
  | Some l => Ret (l ++ [x])
  end.

(** Lines 388-389 of [Find]: the list of find specifications the search
    runs with.  [not find_specs] holds of [None] and of the empty list. *)
Definition find_specs_or_default (find_specs : option (list FindSpec.t))
    : result (list FindSpec.t) :=
  match find_specs with
  | Some ((_ :: _) as l) => Ret l
  | Some [] | None => do d <- FindSpec.default; append find_specs d
  end.

(** Lines 394-397 of [Find]: the file entry the search starts from. *)
Definition start_file_entry (self : t) : option FileEntry :=
  if _PARENTLESS_TYPE_INDICATORS (type_indicator (_file_system self))
  then fs_GetFileEntryByPathSpec (_file_system self) (_mount_point self)
  else Some (fs_GetRootFileEntry (_file_system self)).

(** [Find(find_specs)], consumed to its end, and the find specification
    objects after the search.  When the starting file entry is [None],
    every path through [_FindInFileEntry] reads an attribute of it before
    anything is yielded. *)
Definition Find (self : t) (find_specs : option (list FindSpec.t))
    : run PathSpec * list FindSpec.t :=
  match find_specs_or_default find_specs with
  | Raise e => (mkRun [] (Some e), [])
  | Ret specs =>
      let st :=
        map (fun find_spec => FindSpec.Initialize find_spec (_file_system self))
            specs in
      match start_file_entry self with
      | None => (mkRun [] (Some AttributeError), st)
      | Some file_entry =>
          _FindInFileEntry file_entry (seq 0 (length st)) 0 st
      end
  end.

Definition GetFileEntryByPathSpec (self : t) (path_spec : PathSpec)
    : option FileEntry :=
  fs_GetFileEntryByPathSpec (_file_system self) path_spec.

Definition SplitPath (self : t) (path : string) : list string :=
  fs_SplitPath (_file_system self) path.

(** Two file entries that differ at most in their sub file entries. *)
Definition same_attributes (e e' : FileEntry) : Prop :=
  name e = name e' /\ path_spec e = path_spec e' /\
  IsAllocated e = IsAllocated e' /\ IsDevice e = IsDevice e' /\
  IsDirectory e = IsDirectory e' /\ IsFile e = IsFile e' /\
  IsLink e = IsLink e' /\ IsPipe e = IsPipe e' /\ IsSocket e = IsSocket e'.

(** [access_denied_in e e']: in the tree [e] the enumeration of the sub
    file entries of one entry ([e] or an entry below it) raises
    [AccessError]; [e'] is the same tree with that enumeration ending
    where it raised. *)
Inductive access_denied_in : FileEntry -> FileEntry -> Prop :=
| denied_here e e' :
    same_attributes e e' ->
    sub_file_entries e = sub_file_entries e' ->
    sub_file_entries_error e = Some AccessError ->
    sub_file_entries_error e' = None ->
    access_denied_in e e'
| denied_below p p' before c c' after :
    same_attributes p p' ->
    sub_file_entries_error p = sub_file_entries_error p' ->
    sub_file_entries p = before ++ c :: after ->
    sub_file_entries p' = before ++ c' :: after ->
    access_denied_in c c' ->
    access_denied_in p p'.

(** The file entries of a tree in the order the search visits them: a file
    entry, then the trees of its sub file entries in the order of their
    enumeration. *)
Fixpoint walk (e : FileEntry) : list FileEntry :=
  match e with
  | mkFileEntry _ _ _ _ _ _ _ _ _ subs _ => e :: flat_map walk subs
  end.

(** Every enumeration in the tree ends by itself or with [AccessError]. *)
Definition enumerable (e : FileEntry) : Prop :=
  Forall (fun x => catch_AccessError (sub_file_entries_error x) = None) (walk e).

(** What the find specifications yield for one file entry when none has a
    location: its path specification, once for each find specification
    whose type and allocation checks pass, in the order of the list. *)
Definition yields_for (st : store) (find_specs : list ref) (e : FileEntry)
    : list PathSpec :=
  flat_map
    (fun r =>
       match st !! r with
       | Some s => if FindSpec.final_checks s e then [path_spec e] else []
       | None => []
       end)
    find_specs.

(** The references of a list that denote a find specification. *)
Definition valid_refs (st : store) (find_specs : list ref) : list ref :=
  List.filter (fun r => match st !! r with Some _ => true | None => false end)
    find_specs.

(** The file entry is a device, directory, file, link, pipe or socket. *)
Definition has_entry_type (e : FileEntry) : bool :=
  IsDevice e || IsDirectory e || IsFile e || IsLink e || IsPipe e || IsSocket e.

(** The file entries [k] levels below a file entry, in the order of
    enumeration. *)
Fixpoint entries_below (k : nat) (e : FileEntry) : list FileEntry :=
  match k with
  | O => [e]
  | S k' => flat_map (entries_below k') (sub_file_entries e)
  end.

End WithRegex.
End FileSystemSearcher.

(** ** AESDecrypter *)

(** Modelled from the spec: the encryption modes of
    [dfvfs.lib.definitions] (not among the sources), the "supported mode"s
    of the decrypter; every other value of the [cipher_mode] argument is
    [ENCRYPTION_MODE_OTHER]. *)
Inductive cipher_mode_t : Type :=
| ENCRYPTION_MODE_CBC
| ENCRYPTION_MODE_CFB
| ENCRYPTION_MODE_ECB
| ENCRYPTION_MODE_OFB
| ENCRYPTION_MODE_OTHER (tag : string).

(** The mode objects of [cryptography.hazmat.primitives.ciphers.modes],
    built from the initialization vector argument as it is. *)
Inductive mode_t : Type :=
| modes_CBC (initialization_vector : option (list byte))
| modes_CFB (initialization_vector : option (list byte))
| modes_ECB
| modes_OFB (initialization_vector : option (list byte)).

(** The [cryptography] package: [algorithms_AES key] is
    [algorithms.AES(key)], [block_size] the attribute of the algorithm
    object that [Decrypt] reads, [decryptor a m] is
    [ciphers.Cipher(a, m, backend).decryptor()], and [update c data] gives
    the context after [c.update(data)] and the bytes it returns. *)
Class CipherLibrary : Type := {
  algorithm : Type;
  cipher_context : Type;
  algorithms_AES : list byte -> result algorithm;
  block_size : algorithm -> Z;
  decryptor : algorithm -> mode_t -> result cipher_context;
  update : cipher_context -> list byte -> cipher_context * list byte
}.

Module AESDecrypter.
Section WithLibrary.
Context {CL : CipherLibrary}.

Record t : Type := mk {
  _algorithm : algorithm;
  _cipher_context : cipher_context
}.

(** [cipher_mode in self._ENCRYPTION_MODES] *)
Definition _ENCRYPTION_MODES (cipher_mode : option cipher_mode_t) : bool :=
  match cipher_mode with
  | Some ENCRYPTION_MODE_CBC | Some ENCRYPTION_MODE_CFB
  | Some ENCRYPTION_MODE_ECB | Some ENCRYPTION_MODE_OFB => true
  | Some (ENCRYPTION_MODE_OTHER _) | None => false
  end.

(** [not value] for an optional byte string. *)
Definition not_bytes (value : option (list byte)) : bool :=
  match value with
  | None | Some [] => true
  | Some (_ :: _) => false
  end.

Definition is_ECB (cipher_mode : option cipher_mode_t) : bool :=
  match cipher_mode with
  | Some ENCRYPTION_MODE_ECB => true
  | _ => false
  end.

(** Lines 51-58: the mode object; [None] when no branch assigns [mode]. *)
Definition select_mode (cipher_mode : option cipher_mode_t)
    (initialization_vector : option (list byte)) : option mode_t :=
  match cipher_mode with
  | Some ENCRYPTION_MODE_CBC => Some (modes_CBC initialization_vector)
  | Some ENCRYPTION_MODE_CFB => Some (modes_CFB initialization_vector)
  | Some ENCRYPTION_MODE_ECB => Some modes_ECB
  | Some ENCRYPTION_MODE_OFB => Some (modes_OFB initialization_vector)
  | Some (ENCRYPTION_MODE_OTHER _) | None => None
  end.

(** Lines 60-63: the calls into the cipher library. *)
Definition new_context (key : list byte) (mode : mode_t) : result t :=
  do a <- algorithms_AES key;
  do c <- decryptor a mode;
  Ret (mk a c).

(** [AESDecrypter(cipher_mode, initialization_vector, key)] *)
Definition __init__ (cipher_mode : option cipher_mode_t)
    (initialization_vector key : option (list byte)) : result t :=
  match key with
  | None | Some [] => Raise ValueError
  | Some key_bytes =>
      if negb (_ENCRYPTION_MODES cipher_mode) then Raise ValueError
      else if negb (is_ECB cipher_mode) && not_bytes initialization_vector
      then Raise ValueError
      else
        match select_mode cipher_mode initialization_vector with
        | Some mode => new_context key_bytes mode
        | None => Raise UnboundLocalError
        end
  end.

(** [Decrypt(encrypted_data)]: the pair the call returns and the decrypter
    after the call, whose cipher context has consumed the data. *)
Definition Decrypt (self : t) (encrypted_data : list byte)
    : result ((list byte * list byte) * t) :=
  let bs := block_size (_algorithm self) in
  if bs =? 0 then Raise ZeroDivisionError
  else
    let index_split := - (len encrypted_data mod bs) in
    let '(remaining_encrypted_data, encrypted_data') :=
      if negb (index_split =? 0)
      then (slice_from encrypted_data index_split,
            slice_to encrypted_data index_split)
      else ([], encrypted_data) in
    let '(context', decrypted_data) :=
      update (_cipher_context self) encrypted_data' in
    Ret ((decrypted_data, remaining_encrypted_data),
         mk (_algorithm self) context').

(** The three checks of [__init__] on its arguments (lines 41-48): the key
    is missing, the mode is not supported, or the mode is not ECB and the
    initialization vector is missing. *)
Definition argument_missing (cipher_mode : option cipher_mode_t)
    (initialization_vector key : option (list byte)) : bool :=
  not_bytes key || negb (_ENCRYPTION_MODES cipher_mode) ||
  (negb (is_ECB cipher_mode) && not_bytes initialization_vector).



End WithLibrary.
End AESDecrypter.

(** ** The TSK partition helper *)

(** [int(text, 10)]; [None] when the call raises [ValueError]. *)
Class Builtins : Type := {
  int10 : string -> option Z
}.

(** The [pytsk3] module: the flag of an allocated part. *)
Class Pytsk3 : Type := {
  TSK_VS_PART_FLAG_ALLOC : Z
}.

Module tsk_partition.
Section WithBuiltins.
Context {PB : Builtins} {TSK : Pytsk3}.

(** A volume system part (pytsk3.TSK_VS_PART_INFO); an attribute the
    object does not have is [None]. *)
Record TSK_VS_PART_INFO : Type := mkPart {
  flags : option Z;
  start : option Z;
  part_len : option Z
}.

(** A volume (pytsk3.Volume_Info): its [info.block_size], when it has one,
    and the parts that iterating it produces. *)
Record Volume_Info : Type := mkVolume {
  info_block_size : option Z;
  parts : list TSK_VS_PART_INFO
}.

Definition TSKVolumeGetBytesPerSector (tsk_volume : Volume_Info) : Z :=
  match info_block_size tsk_volume with
  | Some block_size => block_size
  | None => 512
  end.

Definition TSKVsPartGetNumberOfSectors (tsk_vs_part : TSK_VS_PART_INFO)
    : option Z :=
  part_len tsk_vs_part.

Definition TSKVsPartGetStartSector (tsk_vs_part : TSK_VS_PART_INFO)
    : option Z :=
  start tsk_vs_part.

Definition TSKVsPartIsAllocated (tsk_vs_part : TSK_VS_PART_INFO) : bool :=
  match flags tsk_vs_part with
  | Some tsk_vs_part_flags => tsk_vs_part_flags =? TSK_VS_PART_FLAG_ALLOC
  | None => false
  end.

(** [x is not None and x == y] *)
Definition is_some_eq (x : option Z) (y : Z) : bool :=
  match x with
  | Some v => v =? y
  | None => false
  end.

(** The variables the [for] loop of [GetTSKVsPartByPathSpec] leaves
    behind. *)
Record loop_state : Type := mkLoop {
  tsk_vs_part : option TSK_VS_PART_INFO;
  current_part_index : Z;
  current_partition_index : Z
}.

(** Lines 70-88: the loop over the parts, with its three [break]s. *)
Fixpoint find_part (partition_index part_index start_offset : option Z)
    (bytes_per_sector : Z) (tsk_vs_part_list : list TSK_VS_PART_INFO)
    (s : loop_state) : loop_state :=
  match tsk_vs_part_list with
  | [] => s
  | p :: rest =>
      let allocated := TSKVsPartIsAllocated p in
      if allocated && is_some_eq partition_index (current_partition_index s)
      then mkLoop (Some p) (current_part_index s) (current_partition_index s)
      else
        let cpi :=
          if allocated then current_partition_index s + 1
          else current_partition_index s in
        if is_some_eq part_index (current_part_index s)
        then mkLoop (Some p) (current_part_index s) cpi
        else
          let offset_found :=
            match start_offset, TSKVsPartGetStartSector p with
            | Some offset, Some start_sector =>
                start_sector * bytes_per_sector =? offset
            | _, _ => false
            end in
          if offset_found then mkLoop (Some p) (current_part_index s) cpi
          else
            find_part partition_index part_index start_offset bytes_per_sector
              rest (mkLoop (Some p) (current_part_index s + 1) cpi)
  end.

(** Lines 40-49: the partition index and the location after the location
    was read as [/p<number>]. *)
Definition parse_location (location : option string)
    : option Z * option string :=
  match location with
  | Some l =>
      let partition_index :=
        if startswith l "/p" then
          match int10 (string_drop 2 l) with
          | Some n => Some (n - 1)
          | None => None
          end
        else None in
      match partition_index with
      | None => (partition_index, None)
      | Some i => if i <? 0 then (partition_index, None)
                  else (partition_index, location)
      end
  | None => (None, None)
  end.

Definition GetTSKVsPartByPathSpec (tsk_volume : Volume_Info)
    (path_spec : PathSpec) : option TSK_VS_PART_INFO * option Z :=
  let location0 := location path_spec in
  let part_index := part_index path_spec in
  let start_offset := start_offset path_spec in
  let '(partition_index, location) :=
    match part_index with
    | None => parse_location location0
    | Some _ => (None, location0)
    end in
  if match part_index, location, start_offset with
     | None, None, None => true
     | _, _, _ => false
     end
  then (None, None)
  else
    let bytes_per_sector := TSKVolumeGetBytesPerSector tsk_volume in
    let tsk_vs_part_list := parts tsk_volume in
    let number_of_tsk_vs_parts := len tsk_vs_part_list in
    if (0 <? number_of_tsk_vs_parts) &&
       match part_index with
       | Some i => (i <? 0) || (number_of_tsk_vs_parts <=? i)
       | None => false
       end
    then (None, None)
    else
      let s :=
        if 0 <? number_of_tsk_vs_parts
        then find_part partition_index part_index start_offset
               bytes_per_sector tsk_vs_part_list (mkLoop None 0 0)
        else mkLoop None 0 0 in
      match tsk_vs_part s with
      | None => (None, None)
      | Some p =>
          if number_of_tsk_vs_parts <=? current_part_index s then (None, None)
          else if negb (TSKVsPartIsAllocated p) then (Some p, None)
          else (Some p, Some (current_partition_index s))
      end.

(** The location reads as [/p<N>] with [1 <= N]. *)
Definition names_partition (location : option string) : bool :=
  match location with
  | Some l =>
      startswith l "/p" &&
      match int10 (string_drop 2 l) with
      | Some n => 1 <=? n
      | None => false
      end
  | None => false
  end.

(** The allocated parts of a volume, in the order of the volume. *)
Definition allocated_parts (l : list TSK_VS_PART_INFO) : list TSK_VS_PART_INFO :=
  List.filter TSKVsPartIsAllocated l.

(** The part starts at the byte offset. *)
Definition starts_at (bytes_per_sector offset : Z) (p : TSK_VS_PART_INFO) : bool :=
  match TSKVsPartGetStartSector p with
  | Some start_sector => start_sector * bytes_per_sector =? offset
  | None => false
  end.

End WithBuiltins.
End tsk_partition.

(** ** Stand-ins for the libraries, and sample data *)

Module Samples.

(** *** Text of one-byte characters: only A-Z have a lower case *)

Definition ascii_text : Text.
Proof.
  refine {| lower := lower_ascii |}.
  induction s as [|c s IH]; simpl; [reflexivity|].
  rewrite IH. f_equal.
  destruct c as [[] [] [] [] [] [] [] []]; reflexivity.
Defined.

(** *** A regular expression engine of anchored literals

    Compiling a pattern raises [sre_constants.error] when its parentheses
    are not balanced and [OverflowError] when it holds the repetition
    count [{4294967296}], as [re.compile] does; a compiled pattern matches
    the text it spells between [^] and [$], up to case under
    [re.IGNORECASE]. *)

Fixpoint contains (needle s : string) : bool :=
  match s with
  | EmptyString => startswith s needle
  | String _ t => startswith s needle || contains needle t
  end.

Fixpoint paren_depth (s : string) (open : nat) : option nat :=
  match s with
  | EmptyString => Some open
  | String c t =>
      if Ascii.eqb c "("%char then paren_depth t (S open)
      else if Ascii.eqb c ")"%char then
        match open with
        | O => None
        | S k => paren_depth t k
        end
      else paren_depth t open
  end.

Definition literal_compile (p : string) (flags : Z) : compiled (string * Z) :=
  if contains "{4294967296}" p then CompileRaises builtin_OverflowError
  else
    match paren_depth p 0 with
    | Some O => Compiled (p, flags)
    | _ => sre_constants_error
    end.

Definition literal_match (p : string * Z) (text : string) : bool :=
  let '(source, flags) := p in
  if Z.testbit flags 1
  then String.eqb (lower_ascii source) (lower_ascii (FindSpec.anchored text))
  else String.eqb source (FindSpec.anchored text).

Definition literal_engine : RegexEngine :=
  {| pattern := string * Z;
     re_IGNORECASE := 2;
     re_DOTALL := 16;
     re_UNICODE := 32;
     re_compile := literal_compile;
     pattern_match := literal_match |}.

(** *** A cipher library

    It checks its arguments the way tests/encryption/aes_decrypter.py
    expects of the real one: a key has 16, 24 or 32 bytes, and a mode with
    an initialization vector takes one of 16 bytes.  The [block_size] of
    the algorithm object is 128, what [algorithms.AES] of the
    [cryptography] package reports: the size of a block in bits.
    The transformation itself is a stand-in for AES: byte number [i] of the
    stream is combined with byte [i mod len(key)] of the key. *)

Definition xor_byte (a b : byte) : byte :=
  match Byte.of_N (N.lxor (Byte.to_N a) (Byte.to_N b)) with
  | Some c => c
  | None => a
  end.

Definition key_size_ok (key : list byte) : bool :=
  let n := length key in
  (Nat.eqb n 16 || Nat.eqb n 24 || Nat.eqb n 32)%bool.

Definition iv_size_ok (iv : option (list byte)) : bool :=
  match iv with
  | Some v => Nat.eqb (length v) 16
  | None => false
  end.

Definition sample_AES (key : list byte) : result (list byte) :=
  if key_size_ok key then Ret key else Raise ValueError.

Definition sample_decryptor (key : list byte) (mode : mode_t)
    : result (list byte * nat) :=
  match mode with
  | modes_ECB => Ret (key, O)
  | modes_CBC iv | modes_CFB iv | modes_OFB iv =>
      if iv_size_ok iv then Ret (key, O) else Raise ValueError
  end.

Fixpoint keystream (key : list byte) (position : nat) (data : list byte)
    : list byte :=
  match data with
  | [] => []
  | b :: rest =>
      xor_byte b (nth (position mod length key) key "000"%byte)
        :: keystream key (S position) rest
  end.

Definition sample_update (c : list byte * nat) (data : list byte)
    : (list byte * nat) * list byte :=
  let '(key, position) := c in
  ((key, (position + length data)%nat), keystream key position data).

Definition sample_library : CipherLibrary :=
  {| algorithm := list byte;
     cipher_context := list byte * nat;
     algorithms_AES := sample_AES;
     block_size := fun _ => 128;
     decryptor := sample_decryptor;
     update := sample_update |}.

(** *** [int(text, 10)] for an optional sign followed by digits *)

Definition digit_value (c : ascii) : option Z :=
  let n := nat_of_ascii c in
  if (Nat.leb 48 n && Nat.leb n 57)%bool then Some (Z.of_nat (n - 48)) else None.

Fixpoint digits (s : string) (acc : Z) : option Z :=
  match s with
  | EmptyString => Some acc
  | String c t =>
      match digit_value c with
      | Some d => digits t (10 * acc + d)
      | None => None
      end
  end.

Definition decimal_int (s : string) : option Z :=
  match s with
  | EmptyString => None
  | String c t =>
      if Ascii.eqb c "-"%char then
        match t with
        | EmptyString => None
        | _ => option_map Z.opp (digits t 0)
        end
      else if Ascii.eqb c "+"%char then
        match t with
        | EmptyString => None
        | _ => digits t 0
        end
      else digits s 0
  end.

Definition decimal_builtins : Builtins := {| int10 := decimal_int |}.

Definition sample_pytsk3 : Pytsk3 := {| TSK_VS_PART_FLAG_ALLOC := 1 |}.

(** *** A file system: [/], [/a], [/a/b], [/c] *)

Definition entry (n : string) (directory : bool) (allocated : bool)
    (subs : list FileEntry) (err : option exn) : FileEntry :=
  mkFileEntry n (mkPathSpec (Some n) None None) allocated
    false directory (negb directory) false false false subs err.

Definition file_b : FileEntry := entry "b" false true [] None.
Definition dir_a : FileEntry := entry "a" true true [file_b] None.
Definition file_c : FileEntry := entry "c" false true [] None.
Definition root : FileEntry := entry "" true true [dir_a; file_c] None.

(** [/a] when listing it is denied. *)
Definition dir_a_denied : FileEntry := entry "a" true true [] (Some AccessError).
Definition root_denied : FileEntry :=
  entry "" true true [dir_a_denied; file_c] None.

Fixpoint split_on (sep : ascii) (s : string) (current : string) : list string :=
  match s with
  | EmptyString => [current]
  | String c t =>
      if Ascii.eqb c sep then current :: split_on sep t EmptyString
      else split_on sep t (current ++ String c EmptyString)%string
  end.

(** [SplitPath]: the segments between [/], without the empty ones. *)
Definition split_path (p : string) : list string :=
  filter (fun x => negb (String.eqb x "")) (split_on "/"%char p EmptyString).

Definition sample_file_system (r : FileEntry) : FileSystem :=
  mkFileSystem (TYPE_INDICATOR_OTHER "TSK") split_path r (fun _ => None).

Definition sample_searcher (r : FileEntry) : FileSystemSearcher.t :=
  FileSystemSearcher.mk (sample_file_system r) (mkPathSpec (Some "/"%string) None None).

(** [/a] when listing it fails for another reason. *)
Definition dir_a_broken : FileEntry := entry "a" true true [] (Some BackEndError).
Definition root_broken : FileEntry :=
  entry "" true true [dir_a_broken; file_c] None.

(** [/a] with nothing in it, and the tree around it. *)
Definition dir_a_empty : FileEntry := entry "a" true true [] None.
Definition root_empty : FileEntry :=
  entry "" true true [dir_a_empty; file_c] None.

(** [/a] when listing it fails after [/a/b] was enumerated. *)
Definition dir_a_cut_short : FileEntry :=
  entry "a" true true [file_b] (Some AccessError).
Definition root_cut_short : FileEntry :=
  entry "" true true [dir_a_cut_short; file_c] None.

(** The key and the initialization vector of the tests, and a buffer of 32
    bytes. *)
Definition sample_key : list byte := list_byte_of_string "This is a key123".
Definition sample_iv : list byte := list_byte_of_string "This is an IV456".
Definition sample_buffer : list byte :=
  list_byte_of_string "0123456789abcdef0123456789ABCDEF".

Definition sample_decrypter : AESDecrypter.t (CL := sample_library) :=
  AESDecrypter.mk (CL := sample_library) sample_key (sample_key, O).

(** [FindSpec(location=['a', 'b'], case_sensitive=False)] and
    [FindSpec(location_regex=['(', 'b'])], before [Initialize]. *)
Definition find_a_b : FindSpec.t (RE := literal_engine) :=
  FindSpec.mk (RE := literal_engine) None (Some true) false (Some false)
    None None (Some [FindSpec.SegStr "a"; FindSpec.SegStr "b"]) 0.

(** [FindSpec(location_regex=['a{4294967296}', 'b'])], before
    [Initialize]. *)
Definition find_too_large : FindSpec.t (RE := literal_engine) :=
  FindSpec.mk (RE := literal_engine) None (Some true) true (Some true)
    None None
    (Some [FindSpec.SegStr "a{4294967296}"; FindSpec.SegStr "b"]) 0.

(** [FindSpec(location_regex=['a', 'b'])], before [Initialize]. *)
Definition find_regex_a_b : FindSpec.t (RE := literal_engine) :=
  FindSpec.mk (RE := literal_engine) None (Some true) true (Some true)
    None None (Some [FindSpec.SegStr "a"; FindSpec.SegStr "b"]) 0.

(** [FindSpec(location_regex=['(', 'b'])], before [Initialize]. *)
Definition find_malformed : FindSpec.t (RE := literal_engine) :=
  FindSpec.mk (RE := literal_engine) None (Some true) true (Some true)
    None None (Some [FindSpec.SegStr "("; FindSpec.SegStr "b"]) 0.

(** A volume of three parts: the partition table, an allocated partition
    and unallocated space. *)
Definition sample_volume : tsk_partition.Volume_Info :=
  tsk_partition.mkVolume (Some 512)
    [tsk_partition.mkPart (Some 4) (Some 0) (Some 1);
     tsk_partition.mkPart (Some 1) (Some 1) (Some 350);
     tsk_partition.mkPart (Some 2) (Some 351) (Some 2529)].

End Samples.


(** * Properties *)

(** ** FindSpec *)

Section FindSpecProperties.
Context {RE : RegexEngine} {TX : Text}.
Import FindSpec.

Lemma Forall_is_text_map (l : list string) : Forall is_text (map SegStr l).
Proof. induction l as [|x l IH]; simpl; constructor; simpl; auto. Qed.

Lemma well_formed_init types alloc loc loc_regex cs fs s :
  __init__ types alloc loc loc_regex cs = Ret s ->
  loc <> None \/ loc_regex <> None ->
  well_formed (Initialize s fs).
Proof.
  intros Hinit Hloc. unfold __init__ in Hinit.
  destruct loc as [[l|l|]|], loc_regex as [[r|r|]|];
    try discriminate; try (destruct Hloc; congruence);
    injection Hinit as <-; unfold Initialize, well_formed; simpl;
    eexists; (split; [reflexivity|]); (split; [reflexivity|]);
    intros _; apply Forall_is_text_map.
Qed.

Lemma well_formed_Initialize s fs :
  well_formed s -> well_formed (Initialize s fs).
Proof.
  intros (segs & Hs & Hn & Ht). unfold Initialize, well_formed.
  destruct (_location s) as [l|] eqn:Hl; simpl.
  - eexists; repeat split; intros; apply Forall_is_text_map.
  - destruct (_location_regex s) as [r|] eqn:Hr; simpl.
    + eexists; repeat split; intros; apply Forall_is_text_map.
    + rewrite Hs; simpl. rewrite Hs. eexists; repeat split; auto.
Qed.

Lemma segment_name_at_well_formed self segs d seg self' :
  _location_segments self = Some segs ->
  well_formed self ->
  segment_name_at self segs d = Ret (Some (seg, self')) ->
  well_formed self'.
Proof.
  intros Hs Hwf H. destruct Hwf as (segs' & Hs' & Hn & Ht).
  rewrite Hs in Hs'; injection Hs' as <-.
  unfold segment_name_at in H.
  destruct (d =? 0); [injection H as <- <-; exists segs; auto|].
  destruct (segs !! Z.to_nat (d - 1)) as [x|] eqn:Hx; [|discriminate].
  destruct (truthy (_is_regex self)) eqn:Hre.
  - destruct x as [str|p].
    + destruct (re_compile _ _); try discriminate. injection H as <- <-.
      eexists; simpl; split; [reflexivity|]. split.
      * unfold len in *. rewrite length_insert. exact Hn.
      * rewrite Hre. discriminate.
    + injection H as <- <-. exists segs; repeat split; auto.
      rewrite Hre; discriminate.
  - destruct (negb (_is_case_sensitive self)).
    + destruct x as [str|p]; [|discriminate]. injection H as <- <-.
      eexists; simpl; split; [reflexivity|]. split.
      * unfold len in *. rewrite length_insert. exact Hn.
      * intros _. apply Forall_insert; [auto|exact I].
    + injection H as <- <-. exists segs; auto.
Qed.

Lemma well_formed_Matches s file_entry d :
  well_formed s -> well_formed (snd (Matches s file_entry d)).
Proof.
  intros Hwf. pose proof Hwf as (segs & Hs & _).
  unfold Matches. rewrite Hs.
  destruct (_ || _); [exact Hwf|].
  destruct (segment_name_at s segs d) as [[[seg s']|]|e] eqn:Hseg;
    try exact Hwf.
  pose proof (segment_name_at_well_formed _ _ _ _ _ Hs Hwf Hseg) as Hwf'.
  destruct (name_check s' seg file_entry d) as [[|]|e]; try exact Hwf'.
  destruct (negb _); exact Hwf'.
Qed.

Lemma ready_well_formed s : ready s -> well_formed s.
Proof.
  induction 1 as [types alloc loc loc_regex cs fs s Hinit Hloc | s fs _ IH
                 | s file_entry d _ IH].
  - eapply well_formed_init; eauto.
  - apply well_formed_Initialize; exact IH.
  - apply well_formed_Matches; exact IH.
Qed.

(** With no preference for the allocation state, [_CheckIsAllocated]
    fails for every file entry. *)
Lemma _CheckIsAllocated_None self file_entry :
  _is_allocated self = None -> _CheckIsAllocated self file_entry = false.
Proof. intros H. unfold _CheckIsAllocated. rewrite H. reflexivity. Qed.

Lemma final_checks_None self file_entry :
  _is_allocated self = None -> final_checks self file_entry = false.
Proof.
  intros H. unfold final_checks. rewrite (_CheckIsAllocated_None _ _ H).
  destruct (negb _); reflexivity.
Qed.

(** [Matches] changes nothing but the segments. *)
Lemma segment_name_at_fields self segs d seg self' :
  segment_name_at self segs d = Ret (Some (seg, self')) ->
  _is_allocated self' = _is_allocated self /\
  _file_entry_types self' = _file_entry_types self /\
  _is_regex self' = _is_regex self /\
  _is_case_sensitive self' = _is_case_sensitive self /\
  _number_of_location_segments self' = _number_of_location_segments self.
Proof.
  unfold segment_name_at. intros H.
  repeat match type of H with
         | context [if ?b then _ else _] => destruct b
         | context [match ?x with _ => _ end] => destruct x
         end;
    try discriminate; injection H as <- <-; simpl; auto.
Qed.

(** The result of [Matches] is never [True] when the allocation state is
    left open. *)
Lemma Matches_is_allocated_None self file_entry d :
  _is_allocated self = None ->
  fst (Matches self file_entry d) <> Ret true.
Proof.
  intros Ha. unfold Matches.
  destruct (_location_segments self) as [segs|]; simpl;
    [|rewrite (final_checks_None _ _ Ha); discriminate].
  destruct (_ || _); simpl; [discriminate|].
  destruct (segment_name_at self segs d) as [[[seg s']|]|e] eqn:Hseg;
    simpl; try discriminate.
  apply segment_name_at_fields in Hseg as (Ha' & _).
  destruct (name_check s' seg file_entry d) as [[|]|e]; simpl; try discriminate.
  destruct (negb _); simpl; [discriminate|].
  rewrite final_checks_None; [discriminate|congruence].
Qed.

(** C2 (the code departs from it). A find specification built with
    [is_allocated=None] matches no file entry at any depth: [Matches]
    returns [False] whatever the entry's allocation state, where the claim
    has the allocation check pass.  With the default [is_allocated=True]
    the same allocated file matches. *)
Theorem is_allocated_None_matches_nothing :
  exists s,
    __init__ None None None None true = Ret s /\
    (forall file_entry search_depth,
       Matches s file_entry search_depth = (Ret false, s)) /\
    exists s',
      __init__ None (Some true) None None true = Ret s' /\
      Matches s' Samples.file_b 0 = (Ret true, s').
Proof.
  eexists; split; [reflexivity|]. split.
  - intros file_entry d. unfold Matches; simpl.
    rewrite final_checks_None; reflexivity.
  - eexists; split; reflexivity.
Qed.

(** For a ready find specification the number of location segments is the
    length of the segment list. *)
Lemma ready_number_of_location_segments self :
  ready self ->
  exists segs, _location_segments self = Some segs /\
               _number_of_location_segments self = len segs.
Proof.
  intros H. apply ready_well_formed in H as (segs & Hs & Hn & _). eauto.
Qed.

(** C6. [AtMaximumDepth(search_depth)] is true exactly when the location
    segments are set and [search_depth] is the number of location segments
    (the attribute [_number_of_location_segments], which is the length of
    the segment list once the find specification is initialized); without
    location segments it is false at every depth. *)
Theorem AtMaximumDepth_iff self (search_depth : Z) :
  (AtMaximumDepth self search_depth = true <->
     _location_segments self <> None /\
     search_depth = _number_of_location_segments self) /\
  (_location_segments self = None ->
     forall d : Z, AtMaximumDepth self d = false) /\
  (ready self ->
     exists segs, _location_segments self = Some segs /\
                  _number_of_location_segments self = len segs).
Proof.
  unfold AtMaximumDepth. split; [|split].
  - destruct (_location_segments self) as [segs|].
    + destruct (Z.eqb_spec search_depth (_number_of_location_segments self));
        split; try tauto; try discriminate.
      intros _; split; [discriminate|assumption].
    + split; [discriminate|]. intros [H _]; congruence.
  - intros -> d. reflexivity.
  - apply ready_number_of_location_segments.
Qed.

Lemma Matches_out_of_range self segs file_entry d :
  _location_segments self = Some segs ->
  d < 0 \/ _number_of_location_segments self < d ->
  Matches self file_entry d = (Ret false, self).
Proof.
  intros Hs Hd. unfold Matches. rewrite Hs.
  destruct (Z.ltb_spec d 0); simpl; [reflexivity|].
  destruct (Z.ltb_spec (_number_of_location_segments self) d); [reflexivity|lia].
Qed.

(** Off the depth of its last segment [Matches] never returns [True],
    whatever the segment list holds. *)
Lemma Matches_off_depth_not_true self segs file_entry d :
  _location_segments self = Some segs ->
  d <> _number_of_location_segments self ->
  fst (Matches self file_entry d) <> Ret true.
Proof.
  intros Hs Hd. unfold Matches. rewrite Hs.
  destruct (_ || _); simpl; [discriminate|].
  destruct (segment_name_at self segs d) as [[[seg s']|]|x] eqn:Hseg; simpl;
    try discriminate.
  apply segment_name_at_fields in Hseg as (_ & _ & _ & _ & Hn').
  destruct (name_check s' seg file_entry d) as [[|]|x]; simpl;
    try discriminate.
  rewrite Hn'.
  destruct (Z.eqb_spec d (_number_of_location_segments self));
    [contradiction|]. simpl. discriminate.
Qed.

(** Off the depth of its last segment, [Matches] on a well-formed find
    specification returns [False], unless compiling the segment of the
    depth raises an error that is not handled. *)
Lemma Matches_well_formed_off_depth self segs file_entry d :
  well_formed self ->
  _location_segments self = Some segs ->
  d <> _number_of_location_segments self ->
  fst (Matches self file_entry d) =
  match compile_raises_at self segs d with
  | Some x => Raise (exn_of_builtin x)
  | None => Ret false
  end.
Proof.
  intros (segs' & Hs' & Hn & Ht) Hs Hd. rewrite Hs in Hs'.
  injection Hs' as <-. unfold Matches, compile_raises_at. rewrite Hs.
  assert (Hlen : 0 <= len segs) by (unfold len; lia).
  destruct (Z.ltb_spec d 0); simpl.
  { destruct (Z.leb_spec d 0); [reflexivity|lia]. }
  destruct (Z.ltb_spec (_number_of_location_segments self) d); simpl.
  { destruct (Z.leb_spec d 0); [lia|].
    assert (Hout : segs !! Z.to_nat (d - 1) = None)
      by (apply lookup_ge_None; unfold len in *; lia).
    rewrite Hout. reflexivity. }
  assert (Htail : forall s' seg b,
             _number_of_location_segments s' = _number_of_location_segments self ->
             name_check s' seg file_entry d = Ret b ->
             fst (match name_check s' seg file_entry d with
                  | Raise e => (Raise e, s')
                  | Ret false => (Ret false, s')
                  | Ret true =>
                      if negb (d =? _number_of_location_segments s')
                      then (Ret false, s')
                      else (Ret (final_checks s' file_entry), s')
                  end) = Ret false).
  { intros s' seg b Hs' ->. rewrite Hs'.
    destruct (Z.eqb_spec d (_number_of_location_segments self));
      [contradiction|]. destruct b; reflexivity. }
  unfold segment_name_at.
  destruct (Z.eqb_spec d 0) as [->|Hd0].
  { rewrite Z.leb_refl. eapply Htail; [reflexivity|].
    unfold name_check. simpl. reflexivity. }
  destruct (Z.leb_spec d 0); [lia|].
  assert (Hpos : (0 <? d) = true) by (apply Z.ltb_lt; lia).
  assert (Hnz : (d =? 0) = false) by (apply Z.eqb_neq; lia).
  set (i := Z.to_nat (d - 1)).
  assert (Hi : (i < length segs)%nat) by (unfold i, len in *; lia).
  destruct (lookup_lt_is_Some_2 segs i Hi) as [x Hx]. rewrite Hx.
  destruct (truthy (_is_regex self)) eqn:Hre.
  - destruct x as [text|p].
    + destruct (re_compile (anchored text) (regex_flags self)) as [p| |x];
        try reflexivity.
      eapply Htail; [reflexivity|].
      unfold name_check. rewrite Hpos. simpl. rewrite Hre. reflexivity.
    + eapply Htail; [reflexivity|].
      unfold name_check. rewrite Hpos, Hre. reflexivity.
  - specialize (Ht eq_refl). rewrite Forall_lookup in Ht.
    specialize (Ht _ _ Hx). destruct x as [text|p]; [|contradiction].
    destruct (_is_case_sensitive self) eqn:Hcs; simpl negb; cbv iota;
      (eapply Htail; [reflexivity|]);
      unfold name_check; rewrite Hpos, Hnz; simpl; rewrite Hre, Hcs;
      reflexivity.
Qed.

(** C4, as the code has it. With location segments set, [Matches] returns
    [False] at a depth outside [0, segment_count], and at a depth other
    than the segment count it never returns [True], whatever the name of
    the file entry: on a find specification whose segment list is as
    [Initialize] and its own [Matches] calls leave it, it returns [False],
    unless compiling the location_regex segment of that depth raises an
    error other than [sre_constants.error], which is not handled. *)
Theorem Matches_only_at_segment_count self segs file_entry (search_depth : Z) :
  _location_segments self = Some segs ->
  (search_depth < 0 \/ _number_of_location_segments self < search_depth ->
     Matches self file_entry search_depth = (Ret false, self)) /\
  (search_depth <> _number_of_location_segments self ->
     fst (Matches self file_entry search_depth) <> Ret true) /\
  (search_depth <> _number_of_location_segments self ->
   well_formed self ->
   compile_raises_at self segs search_depth = None ->
     fst (Matches self file_entry search_depth) = Ret false).
Proof.
  intros Hs. split; [|split].
  - apply Matches_out_of_range with segs, Hs.
  - apply Matches_off_depth_not_true with segs, Hs.
  - intros Hd Hwf Hc.
    rewrite (Matches_well_formed_off_depth self segs file_entry search_depth
               Hwf Hs Hd), Hc. reflexivity.
Qed.



(** *** Initializing again, and segments memoized in place *)

(** X1. [Initialize] can be repeated: initializing a find specification a
    second time against the same file system changes nothing. *)
Theorem Initialize_idempotent self file_system :
  Initialize (Initialize self file_system) file_system =
  Initialize self file_system.
Proof.
  destruct self as [types alloc cs re loc loc_re segs n].
  unfold Initialize; simpl.
  destruct loc as [l|]; simpl; [reflexivity|].
  destruct loc_re as [l|]; simpl; [reflexivity|].
  destruct segs as [l|]; reflexivity.
Qed.

Lemma same_but_memoized_refl s : same_but_memoized s s.
Proof.
  unfold same_but_memoized. repeat split.
  destruct (_location_segments s) as [l|]; [|exact I].
  apply Forall_Forall2_diag, Forall_forall. intros x _. left; reflexivity.
Qed.

Lemma final_checks_same_fields s s' e :
  _file_entry_types s' = _file_entry_types s ->
  _is_allocated s' = _is_allocated s ->
  final_checks s' e = final_checks s e.
Proof.
  intros Ht Ha.
  unfold final_checks, _CheckFileEntryType, _CheckIsAllocated, _CheckIsDevice,
    _CheckIsDirectory, _CheckIsFile, _CheckIsLink, _CheckIsPipe,
    _CheckIsSocket, check_type.
  rewrite Ht, Ha. reflexivity.
Qed.

Lemma name_check_same_fields s s' seg e d :
  _is_regex s' = _is_regex s ->
  _is_case_sensitive s' = _is_case_sensitive s ->
  name_check s' seg e d = name_check s seg e d.
Proof. intros Hr Hc. unfold name_check. rewrite Hr, Hc. reflexivity. Qed.

(** What [segment_name_at] gives for a find specification and for a
    memoized one: the same error, the same [return False], or the same
    segment name, with find specifications that are memoized forms of the
    first. *)
Lemma segment_name_at_memoized s s' l l' d :
  same_but_memoized s s' ->
  _location_segments s = Some l ->
  _location_segments s' = Some l' ->
  match segment_name_at s l d, segment_name_at s' l' d with
  | Raise x, Raise x' => x = x'
  | Ret None, Ret None => True
  | Ret (Some (seg, s1)), Ret (Some (seg', s1')) =>
      seg = seg' /\ same_but_memoized s s1 /\ same_but_memoized s s1'
  | _, _ => False
  end.
Proof.
  intros Hmemo Hl Hl'. pose proof Hmemo as (Ht & Ha & Hc & Hr & Hn & Hsegs).
  rewrite Hl, Hl' in Hsegs.
  assert (Hflags : regex_flags s' = regex_flags s)
    by (unfold regex_flags; rewrite Hc; reflexivity).
  unfold segment_name_at. rewrite Hr, Hc, Hflags.
  destruct (d =? 0);
    [split; [reflexivity|split; [apply same_but_memoized_refl|exact Hmemo]]|].
  set (i := Z.to_nat (d - 1)).
  destruct (l !! i) as [a|] eqn:Ha0.
  2: { apply lookup_ge_None in Ha0.
       assert (Hb0 : l' !! i = None).
       { apply lookup_ge_None. rewrite <- (Forall2_length _ _ _ Hsegs). exact Ha0. }
       rewrite Hb0. reflexivity. }
  destruct (Forall2_lookup_l _ _ _ _ _ Hsegs Ha0) as (b & Hb0 & Hab).
  rewrite Hb0.
  assert (Hleft : forall x, memoized s a x -> same_but_memoized s
                    (set_location_segments s (Some (<[i:=x]> l)))).
  { intros x Hx. unfold same_but_memoized; simpl. rewrite Hl.
    repeat split. rewrite <- (list_insert_id l i a Ha0) at 1.
    apply Forall2_insert; [|exact Hx].
    apply Forall_Forall2_diag, Forall_forall. intros y _. left; reflexivity. }
  assert (Hright : forall x, memoized s a x -> same_but_memoized s
                     (set_location_segments s' (Some (<[i:=x]> l')))).
  { intros x Hx. unfold same_but_memoized; simpl. rewrite Hl.
    repeat split; auto. rewrite <- (list_insert_id l i a Ha0).
    apply Forall2_insert; assumption. }
  destruct (truthy (_is_regex s)) eqn:Hre.
  - destruct Hab as [<-|[(_ & text & p & -> & -> & Hp)|(Hfalse & _)]];
      [|rewrite Hp|congruence].
    + destruct a as [text|p].
      * destruct (re_compile (anchored text) (regex_flags s)) as [p| |x] eqn:Hp;
          [|exact I|reflexivity].
        assert (Hx : memoized s (SegStr text) (SegPat p)).
        { right; left. split; [exact Hre|]. eauto. }
        auto.
      * split; [reflexivity|split; [apply same_but_memoized_refl|exact Hmemo]].
    + split; [reflexivity|]. split; [|exact Hmemo].
      apply Hleft. right; left. split; [exact Hre|]. eauto.
  - destruct (_is_case_sensitive s) eqn:Hcs; simpl negb; cbv iota.
    + destruct Hab as [<-|[(Htrue & _)|(_ & Hfalse & _)]]; try congruence.
      split; [reflexivity|split; [apply same_but_memoized_refl|exact Hmemo]].
    + assert (Hlow : forall text text', lower text' = lower text ->
                memoized s (SegStr text) (SegStr (lower text'))).
      { intros text text' Heq. right; right. split; [exact Hre|].
        split; [exact Hcs|]. exists text, (lower text').
        rewrite lower_idempotent. auto. }
      destruct Hab as [<-|[(Htrue & _)|(_ & _ & text & text' & -> & -> & Hlower)]];
        [|congruence|].
      * destruct a as [text|p]; [|reflexivity].
        split; [reflexivity|]. split; [apply Hleft|apply Hright]; auto.
      * rewrite Hlower. split; [reflexivity|].
        split; [apply Hleft|apply Hright]; rewrite <- Hlower; auto.
Qed.

(** [Matches] gives a memoized find specification the answer it gives the
    original, and leaves a memoized form of the original behind. *)
Lemma Matches_memoized s s' e d :
  same_but_memoized s s' ->
  fst (Matches s' e d) = fst (Matches s e d) /\
  same_but_memoized s (snd (Matches s' e d)).
Proof.
  intros Hmemo. pose proof Hmemo as (Ht & Ha & Hc & Hr & Hn & Hsegs).
  unfold Matches. rewrite Hn.
  destruct (_location_segments s) as [l|] eqn:Hl,
           (_location_segments s') as [l'|] eqn:Hl'; try contradiction.
  2: { simpl. rewrite (final_checks_same_fields _ _ _ Ht Ha). auto. }
  destruct (_ || _); [simpl; auto|].
  pose proof (segment_name_at_memoized s s' l l' d Hmemo Hl Hl') as Hseg.
  destruct (segment_name_at s l d) as [[[seg s1]|]|x],
           (segment_name_at s' l' d) as [[[seg' s1']|]|x'];
    try contradiction; simpl; auto; [|subst; auto].
  destruct Hseg as (<- & Hs1 & Hs1').
  destruct Hs1 as (Ht1 & Ha1 & Hc1 & Hr1 & Hn1 & _).
  pose proof Hs1' as (Ht1' & Ha1' & Hc1' & Hr1' & Hn1' & _).
  rewrite (name_check_same_fields s s1' seg e d Hr1' Hc1').
  rewrite (name_check_same_fields s s1 seg e d Hr1 Hc1).
  rewrite Hn1, Hn1'.
  rewrite (final_checks_same_fields _ _ e Ht1 Ha1).
  rewrite (final_checks_same_fields _ _ e Ht1' Ha1').
  destruct (name_check s seg e d) as [[|]|x]; simpl; auto.
  destruct (negb _); simpl; auto.
Qed.

Lemma after_calls_memoized s calls : same_but_memoized s (after_calls s calls).
Proof.
  unfold after_calls.
  assert (H : forall s', same_but_memoized s s' ->
            same_but_memoized s
              (fold_left (fun s0 call => snd (Matches s0 (fst call) (snd call)))
                         calls s')).
  { induction calls as [|[e d] calls IH]; intros s' Hs'; simpl; [exact Hs'|].
    apply IH. apply Matches_memoized, Hs'. }
  apply H, same_but_memoized_refl.
Qed.

(** X2. What [Matches] stores in a find specification (compiled patterns,
    lower-cased segments) never changes its answers: after any sequence of
    [Matches] calls, [Matches] returns or raises for every file entry and
    depth what it does on the find specification before those calls, and
    [AtMaximumDepth] is the same at every depth. *)
Theorem Matches_memoization_is_transparent
    self (calls : list (FileEntry * Z)) file_entry (search_depth : Z) :
  fst (Matches (after_calls self calls) file_entry search_depth) =
    fst (Matches self file_entry search_depth) /\
  AtMaximumDepth (after_calls self calls) search_depth =
    AtMaximumDepth self search_depth.
Proof.
  pose proof (after_calls_memoized self calls) as Hmemo. split.
  - apply Matches_memoized, Hmemo.
  - destruct Hmemo as (_ & _ & _ & _ & Hn & Hsegs).
    unfold AtMaximumDepth. rewrite Hn.
    destruct (_location_segments self), (_location_segments (after_calls _ _));
      try contradiction; reflexivity.
Qed.

(** X3. What [Matches] returns or raises on a find specification with a
    location or location_regex whose segment list is as [Initialize] and
    its own [Matches] calls leave it. If compiling the location_regex
    segment of the depth raises an error other than [sre_constants.error],
    [Matches] raises that error. Otherwise it raises nothing, and returns
    [True] exactly when the depth is the number of location segments, the
    name of the file entry matches the segment of that depth (only that
    one: the segments before it are not looked at), and the type and
    allocation checks pass. *)
Theorem Matches_with_location self segs file_entry (search_depth : Z) :
  well_formed self ->
  _location_segments self = Some segs ->
  fst (Matches self file_entry search_depth) =
  match compile_raises_at self segs search_depth with
  | Some x => Raise (exn_of_builtin x)
  | None =>
      Ret ((search_depth =? _number_of_location_segments self)
           && name_matches self segs file_entry search_depth
           && final_checks self file_entry)
  end.
Proof.
  intros Hwf Hsegs.
  destruct (Z.eqb_spec search_depth (_number_of_location_segments self))
    as [->|Hne].
  2: { rewrite (Matches_well_formed_off_depth self segs file_entry
                  search_depth Hwf Hsegs Hne).
       destruct (compile_raises_at self segs search_depth); reflexivity. }
  destruct Hwf as (segs' & Hs & Hn & Ht). rewrite Hsegs in Hs.
  injection Hs as <-. simpl andb.
  unfold Matches, name_matches, compile_raises_at. rewrite Hsegs.
  assert (Hlen : 0 <= len segs) by (unfold len; lia).
  destruct (Z.ltb_spec (_number_of_location_segments self) 0); [lia|].
  rewrite Z.ltb_irrefl. simpl orb. cbv iota.
  unfold segment_name_at.
  destruct (Z.eqb_spec (_number_of_location_segments self) 0) as [H0|H0].
  - unfold name_check. rewrite H0. simpl.
    destruct (name file_entry); reflexivity.
  - destruct (Z.leb_spec (_number_of_location_segments self) 0); [lia|].
    set (i := Z.to_nat (_number_of_location_segments self - 1)).
    assert (Hi : (i < length segs)%nat) by (unfold i, len in *; lia).
    destruct (lookup_lt_is_Some_2 segs i Hi) as [x Hx]. rewrite Hx.
    assert (Hpos : (0 <? _number_of_location_segments self) = true)
      by (apply Z.ltb_lt; lia).
    assert (Hnz : (_number_of_location_segments self =? 0) = false)
      by (apply Z.eqb_neq; exact H0).
    destruct (truthy (_is_regex self)) eqn:Hre.
    + destruct x as [text|p].
      * destruct (re_compile _ _) as [p| |x]; try reflexivity.
        unfold name_check; simpl. rewrite Hpos, Hre, Z.eqb_refl. simpl.
        destruct (pattern_match p (name file_entry)); reflexivity.
      * unfold name_check. rewrite Hpos, Hre, Z.eqb_refl. simpl.
        destruct (pattern_match p (name file_entry)); reflexivity.
    + specialize (Ht eq_refl). rewrite Forall_lookup in Ht.
      specialize (Ht _ _ Hx). destruct x as [text|p]; [|contradiction].
      destruct (_is_case_sensitive self) eqn:Hcs; simpl negb; cbv iota.
      * unfold name_check. rewrite Hpos, Hre, Hcs, Z.eqb_refl, orb_true_r.
        simpl. rewrite negb_involutive.
        destruct (String.eqb text (name file_entry)); reflexivity.
      * unfold name_check; simpl. rewrite Hpos, Hre, Hcs, Hnz, Z.eqb_refl.
        simpl. rewrite negb_involutive.
        destruct (String.eqb (lower text) (lower (name file_entry)));
          reflexivity.
Qed.

(** What [Matches] leaves behind does not depend on the file entry. *)
Lemma Matches_spec_after s e e' d :
  snd (Matches s e d) = snd (Matches s e' d).
Proof.
  unfold Matches.
  destruct (_location_segments s) as [segs|]; [|reflexivity].
  destruct (_ || _); [reflexivity|].
  destruct (segment_name_at s segs d) as [[[seg s']|]|x]; try reflexivity.
  destruct (name_check s' seg e d) as [[|]|x],
           (name_check s' seg e' d) as [[|]|x'];
    try reflexivity; destruct (negb _); reflexivity.
Qed.

Lemma Matches_keeps_depth s e d :
  _number_of_location_segments (snd (Matches s e d)) =
    _number_of_location_segments s /\
  forall d', AtMaximumDepth (snd (Matches s e d)) d' = AtMaximumDepth s d'.
Proof.
  destruct (Matches_memoized s s e d (same_but_memoized_refl s))
    as (_ & _ & _ & _ & _ & Hn & Hsegs).
  split; [exact Hn|]. intros d'. unfold AtMaximumDepth. rewrite Hn.
  destruct (_location_segments s), (_location_segments (snd _));
    try contradiction; reflexivity.
Qed.

End FindSpecProperties.

(** ** FileSystemSearcher *)

Section SearcherProperties.
Context {RE : RegexEngine} {TX : Text}.
Import FileSystemSearcher.
Local Abbreviation store := (list FindSpec.t).
Local Abbreviation ref := nat.

Lemma _FindInFileEntry_unfold file_entry find_specs d st :
  _FindInFileEntry file_entry find_specs d st =
  let '((ys, res), st1) := match_find_specs file_entry d find_specs [] st in
  match res with
  | Raise e => (mkRun ys (Some e), st1)
  | Ret [] => (mkRun ys None, st1)
  | Ret ((_ :: _) as sub_find_specs) =>
      let '(rc, st2) :=
        for_sub_file_entries
          (fun c => _FindInFileEntry c sub_find_specs (d + 1))
          (sub_file_entries_error file_entry)
          (sub_file_entries file_entry) st1 in
      (mkRun (ys ++ yielded rc) (catch_AccessError (ending rc)), st2)
  end.
Proof. destruct file_entry; reflexivity. Qed.

Lemma for_sub_file_entries_nil visit err st :
  for_sub_file_entries visit err [] st = (mkRun [] err, st).
Proof. reflexivity. Qed.

Lemma for_sub_file_entries_cons visit err c l st :
  for_sub_file_entries visit err (c :: l) st =
  let '(r1, st') := visit c st in
  match ending r1 with
  | Some e => (r1, st')
  | None =>
      let '(r2, st'') := for_sub_file_entries visit err l st' in
      (mkRun (yielded r1 ++ yielded r2) (ending r2), st'')
  end.
Proof. reflexivity. Qed.

Lemma match_find_specs_cons e d r rest sub st :
  match_find_specs e d (r :: rest) sub st =
  match st !! r with
  | None => match_find_specs e d rest sub st
  | Some find_spec =>
      let '(res, find_spec') := FindSpec.Matches find_spec e d in
      match res with
      | Raise x => (([], Raise x), <[r := find_spec']> st)
      | Ret b =>
          let '((ys', res'), st'') :=
            match_find_specs e d rest
              (if negb (FindSpec.AtMaximumDepth find_spec' d)
               then sub ++ [r] else sub) (<[r := find_spec']> st) in
          (((if b then [path_spec e] else []) ++ ys', res'), st'')
      end
  end.
Proof. reflexivity. Qed.

(** [Matches] reads the attributes of the file entry, not its sub file
    entries. *)
Lemma Matches_same_attributes s e e' d :
  same_attributes e e' -> FindSpec.Matches s e d = FindSpec.Matches s e' d.
Proof.
  intros (Hn & _ & Ha & Hdev & Hdir & Hf & Hl & Hp & Hs).
  unfold FindSpec.Matches, FindSpec.name_check, FindSpec.final_checks,
    FindSpec._CheckFileEntryType, FindSpec._CheckIsAllocated,
    FindSpec._CheckIsDevice, FindSpec._CheckIsDirectory,
    FindSpec._CheckIsFile, FindSpec._CheckIsLink, FindSpec._CheckIsPipe,
    FindSpec._CheckIsSocket.
  rewrite Hn, Ha, Hdev, Hdir, Hf, Hl, Hp, Hs. reflexivity.
Qed.

Lemma match_find_specs_same_attributes e e' d find_specs sub st :
  same_attributes e e' ->
  match_find_specs e d find_specs sub st =
  match_find_specs e' d find_specs sub st.
Proof.
  intros He. revert sub st.
  induction find_specs as [|r rest IH]; intros sub st; simpl; [reflexivity|].
  destruct (st !! r) as [find_spec|]; [|apply IH].
  rewrite (Matches_same_attributes _ _ _ _ He).
  destruct He as (_ & -> & _).
  destruct (FindSpec.Matches find_spec e' d) as [[b|x] find_spec'];
    [|reflexivity].
  rewrite IH. reflexivity.
Qed.

(** The error that ends the enumeration only shows when every visit ended
    without one. *)
Lemma for_sub_file_entries_error visit err l st :
  for_sub_file_entries visit err l st =
  let '(r, st') := for_sub_file_entries visit None l st in
  (mkRun (yielded r)
         (match ending r with None => err | Some e => Some e end), st').
Proof.
  revert st. induction l as [|c l IH]; intros st.
  - reflexivity.
  - rewrite !for_sub_file_entries_cons.
    destruct (visit c st) as [[ys1 [e1|]] st']; simpl; [reflexivity|].
    rewrite IH.
    destruct (for_sub_file_entries visit None l st') as [[ys2 e2] st''].
    reflexivity.
Qed.

Lemma catch_AccessError_after_enumeration (e : option exn) :
  catch_AccessError (match e with None => Some AccessError | Some x => Some x end)
  = catch_AccessError e.
Proof. destruct e as [[]|]; reflexivity. Qed.

Lemma for_sub_file_entries_middle visit visit' err before c c' after st :
  (forall x st, visit x st = visit' x st) ->
  (forall st, visit c st = visit' c' st) ->
  for_sub_file_entries visit err (before ++ c :: after) st =
  for_sub_file_entries visit' err (before ++ c' :: after) st.
Proof.
  intros Hv Hc. revert st.
  assert (Hafter : forall st, for_sub_file_entries visit err after st =
                              for_sub_file_entries visit' err after st).
  { induction after as [|x l IH]; intros st; [reflexivity|].
    rewrite !for_sub_file_entries_cons, Hv.
    destruct (visit' x st) as [[ys [e|]] st']; simpl; [reflexivity|].
    rewrite IH. reflexivity. }
  induction before as [|x l IH]; intros st; simpl app.
  - rewrite !for_sub_file_entries_cons, Hc.
    destruct (visit' c' st) as [[ys [e|]] st']; simpl; [reflexivity|].
    rewrite Hafter. reflexivity.
  - rewrite !for_sub_file_entries_cons, Hv.
    destruct (visit' x st) as [[ys [e|]] st']; simpl; [reflexivity|].
    rewrite IH. reflexivity.
Qed.

(** What [Matches] raises is never an [AccessError]. *)
Lemma segment_name_at_raises s segs d x :
  FindSpec.segment_name_at s segs d = Raise x -> x <> AccessError.
Proof.
  unfold FindSpec.segment_name_at.
  destruct (d =? 0); [discriminate|].
  destruct (segs !! Z.to_nat (d - 1)) as [[text|p]|];
    destruct (truthy (FindSpec._is_regex s));
    try destruct (re_compile _ _) as [p'| |b];
    try destruct (negb (FindSpec._is_case_sensitive s));
    try discriminate; intros [= <-];
    first [discriminate | destruct b; discriminate].
Qed.

Lemma name_check_raises s seg e d x :
  FindSpec.name_check s seg e d = Raise x -> x <> AccessError.
Proof.
  unfold FindSpec.name_check.
  destruct (_ && _); [destruct seg; intros [= <-] || discriminate; discriminate|].
  destruct (_ || _); discriminate.
Qed.

Lemma Matches_raises s e d x :
  fst (FindSpec.Matches s e d) = Raise x -> x <> AccessError.
Proof.
  unfold FindSpec.Matches.
  destruct (FindSpec._location_segments s) as [segs|]; [|discriminate].
  destruct (_ || _); [discriminate|].
  destruct (FindSpec.segment_name_at s segs d) as [[[seg s']|]|y] eqn:Hseg;
    simpl; try discriminate.
  - destruct (FindSpec.name_check s' seg e d) as [[|]|y] eqn:Hn; simpl;
      try discriminate.
    + destruct (negb _); discriminate.
    + intros [= <-]. eapply name_check_raises, Hn.
  - intros [= <-]. eapply segment_name_at_raises, Hseg.
Qed.

Lemma match_find_specs_raises e d find_specs sub st x :
  snd (fst (match_find_specs e d find_specs sub st)) = Raise x ->
  x <> AccessError.
Proof.
  revert sub st. induction find_specs as [|r rest IH]; intros sub st; simpl.
  - discriminate.
  - destruct (st !! r) as [find_spec|]; [|apply IH].
    destruct (FindSpec.Matches find_spec e d) as [[b|y] find_spec'] eqn:Hm.
    + specialize (IH (if negb (FindSpec.AtMaximumDepth find_spec' d)
                      then sub ++ [r] else sub) (<[r:=find_spec']> st)).
      destruct (match_find_specs e d rest _ _) as [[ys res] st''].
      exact IH.
    + simpl. intros [= <-]. eapply Matches_raises. rewrite Hm. reflexivity.
Qed.

(** No run of [_FindInFileEntry] ends with an [AccessError]. *)
Lemma _FindInFileEntry_never_AccessError e find_specs d st :
  ending (fst (_FindInFileEntry e find_specs d st)) <> Some AccessError.
Proof.
  rewrite _FindInFileEntry_unfold.
  pose proof (match_find_specs_raises e d find_specs [] st) as Hr.
  destruct (match_find_specs e d find_specs [] st) as [[ys [sub|x]] st1];
    simpl in *.
  - destruct sub as [|r sub]; simpl; [discriminate|].
    destruct (for_sub_file_entries _ _ _ _) as [[ys' [[]|]] st2];
      simpl; discriminate.
  - intros [= ->]. exact (Hr _ eq_refl eq_refl).
Qed.

Lemma access_denied_in_same_attributes e e' :
  access_denied_in e e' -> same_attributes e e'.
Proof. destruct 1; assumption. Qed.

Lemma access_denied_in_same_run e e' :
  access_denied_in e e' ->
  forall find_specs d st,
    _FindInFileEntry e find_specs d st = _FindInFileEntry e' find_specs d st.
Proof.
  induction 1 as [e e' Hattr Hsubs Herr Herr'
                 | p p' before c c' after Hattr Herr Hsubs Hsubs' _ IH];
    intros find_specs d st; rewrite !_FindInFileEntry_unfold;
    rewrite (match_find_specs_same_attributes _ _ _ _ _ _ Hattr);
    destruct (match_find_specs _ d find_specs [] st) as [[ys [sub|x]] st1];
    try reflexivity; destruct sub as [|r sub]; try reflexivity.
  - rewrite Herr, Herr', Hsubs, for_sub_file_entries_error.
    destruct (for_sub_file_entries _ None _ st1) as [[ys' e2] st2]; simpl.
    rewrite catch_AccessError_after_enumeration. reflexivity.
  - rewrite Herr, Hsubs, Hsubs'.
    rewrite (for_sub_file_entries_middle _
               (fun c => _FindInFileEntry c (r :: sub) (d + 1))
               _ before c c' after); auto.
Qed.

(** A file entry whose enumeration raises [AccessError] at once is searched
    as an entry without sub file entries: what the loop over the find
    specifications yields, and nothing more. *)
Lemma _FindInFileEntry_denied_at_once e find_specs d st :
  sub_file_entries e = [] ->
  sub_file_entries_error e = Some AccessError ->
  _FindInFileEntry e find_specs d st =
  let '((ys, res), st1) := match_find_specs e d find_specs [] st in
  (mkRun ys (match res with Raise x => Some x | Ret _ => None end), st1).
Proof.
  intros Hsubs Herr. rewrite _FindInFileEntry_unfold, Hsubs, Herr.
  destruct (match_find_specs e d find_specs [] st) as [[ys [sub|x]] st1];
    [|reflexivity].
  destruct sub; simpl; [reflexivity|]. rewrite app_nil_r. reflexivity.
Qed.

(** C1 (the code departs from it). [Find(None)], which is also [Find()],
    raises [AttributeError] before anything is yielded: the default find
    specification is appended to [None]. *)
Theorem Find_None_raises_AttributeError (self : FileSystemSearcher.t) :
  Find self None = (mkRun [] (Some AttributeError), []).
Proof. reflexivity. Qed.

(** [Find([])] searches with the one default find specification, from the
    starting file entry. *)
Lemma Find_empty_list (self : FileSystemSearcher.t) file_entry d :
  start_file_entry self = Some file_entry ->
  FindSpec.default = Ret d ->
  Find self (Some []) =
  _FindInFileEntry file_entry [0%nat] 0
    [FindSpec.Initialize d (_file_system self)].
Proof.
  intros He [= <-]. unfold Find. simpl. rewrite He. reflexivity.
Qed.


(** C8. When the enumeration of the sub file entries of a file entry
    raises [AccessError], the search of any tree that holds the entry runs
    as if the enumeration had ended there: the same path specifications are
    yielded in the same order, the find specifications end up the same, and
    the run does not end with an [AccessError]. *)
Theorem AccessError_ends_enumeration e e' find_specs (d : Z) (st : store) :
  access_denied_in e e' ->
  _FindInFileEntry e find_specs d st = _FindInFileEntry e' find_specs d st /\
  ending (fst (_FindInFileEntry e find_specs d st)) <> Some AccessError.
Proof.
  intros H. split.
  - apply access_denied_in_same_run, H.
  - apply _FindInFileEntry_never_AccessError.
Qed.

(** *** The search without locations *)

Lemma FileEntry_subs_ind (P : FileEntry -> Prop) :
  (forall e, Forall P (sub_file_entries e) -> P e) -> forall e, P e.
Proof.
  intros H. fix IH 1. intros e. apply H.
  destruct e as [n ps a dev dir f l pi so subs err]. simpl.
  induction subs as [|c subs IHsubs]; constructor; [apply IH|exact IHsubs].
Qed.

Lemma walk_unfold e : walk e = e :: flat_map walk (sub_file_entries e).
Proof. destruct e; reflexivity. Qed.

Lemma flat_map_flat_map {A B C} (f : B -> list C) (g : A -> list B) l :
  flat_map f (flat_map g l) = flat_map (fun x => flat_map f (g x)) l.
Proof.
  induction l as [|x l IH]; simpl; [reflexivity|].
  rewrite flat_map_app, IH. reflexivity.
Qed.

Lemma enumerable_unfold e :
  enumerable e ->
  catch_AccessError (sub_file_entries_error e) = None /\
  Forall enumerable (sub_file_entries e).
Proof.
  unfold enumerable. rewrite walk_unfold. intros H.
  apply Forall_cons in H as [He Hsubs]. split; [exact He|].
  induction (sub_file_entries e) as [|c l IH]; constructor;
    simpl in Hsubs; apply Forall_app in Hsubs as [Hc Hl]; auto.
Qed.

Lemma Matches_without_location s e d :
  FindSpec._location_segments s = None ->
  FindSpec.Matches s e d = (Ret (FindSpec.final_checks s e), s) /\
  FindSpec.AtMaximumDepth s d = false.
Proof.
  intros H. unfold FindSpec.Matches, FindSpec.AtMaximumDepth. rewrite H. auto.
Qed.

Lemma yields_for_valid_refs st find_specs e :
  yields_for st (valid_refs st find_specs) e = yields_for st find_specs e.
Proof.
  unfold yields_for, valid_refs.
  induction find_specs as [|r l IH]; simpl; [reflexivity|].
  destruct (st !! r) as [s|] eqn:Hr; simpl; [rewrite Hr, IH|]; auto.
Qed.

Lemma match_find_specs_without_location (st : store) e d find_specs :
  Forall (fun s => FindSpec._location_segments s = None) st ->
  forall sub,
    match_find_specs e d find_specs sub st =
    ((yields_for st find_specs e, Ret (sub ++ valid_refs st find_specs)), st).
Proof.
  intros Hst. induction find_specs as [|r l IH]; intros sub.
  - simpl. rewrite app_nil_r. reflexivity.
  - rewrite match_find_specs_cons. unfold yields_for, valid_refs. simpl.
    destruct (st !! r) as [s|] eqn:Hr; [|apply IH].
    rewrite Forall_lookup in Hst.
    destruct (Matches_without_location s e d (Hst _ _ Hr)) as [-> ->].
    rewrite (list_insert_id _ _ _ Hr), IH. simpl.
    rewrite <- app_assoc. reflexivity.
Qed.

Lemma for_sub_file_entries_each visit err l (st : store)
    (f : FileEntry -> list PathSpec) :
  Forall (fun c => visit c st = (mkRun (f c) None, st)) l ->
  for_sub_file_entries visit err l st = (mkRun (flat_map f l) err, st).
Proof.
  induction 1 as [|c l Hc _ IH]; [reflexivity|].
  rewrite for_sub_file_entries_cons, Hc. simpl. rewrite IH. reflexivity.
Qed.

Lemma _FindInFileEntry_without_location (st : store) :
  Forall (fun s => FindSpec._location_segments s = None) st ->
  forall e find_specs d,
    enumerable e ->
    _FindInFileEntry e find_specs d st =
    (mkRun (flat_map (yields_for st find_specs) (walk e)) None, st).
Proof.
  intros Hst e. induction e as [e IH] using FileEntry_subs_ind.
  intros find_specs d He. apply enumerable_unfold in He as [Herr Hsubs].
  rewrite _FindInFileEntry_unfold, match_find_specs_without_location by auto.
  simpl app. rewrite walk_unfold. simpl flat_map.
  destruct (valid_refs st find_specs) as [|r sub] eqn:Hvalid.
  - assert (Hnone : forall x, yields_for st find_specs x = []).
    { intros x. rewrite <- yields_for_valid_refs, Hvalid. reflexivity. }
    rewrite flat_map_flat_map.
    replace (flat_map _ (sub_file_entries e)) with (@nil PathSpec);
      [rewrite app_nil_r; reflexivity|].
    induction (sub_file_entries e) as [|c l IHl]; [reflexivity|]. simpl.
    apply Forall_cons in IH as [_ IH]. apply Forall_cons in Hsubs as [_ Hsubs].
    rewrite <- (IHl IH Hsubs), app_nil_r.
    clear - Hnone. induction (walk c) as [|x w IHw]; [reflexivity|].
    simpl. rewrite Hnone. exact IHw.
  - rewrite (for_sub_file_entries_each _ _ _ _
               (fun c => flat_map (yields_for st find_specs) (walk c))).
    + simpl. rewrite Herr, flat_map_flat_map. reflexivity.
    + rewrite Forall_forall in IH, Hsubs. apply Forall_forall. intros c Hc.
      rewrite (IH c Hc) by auto. do 2 f_equal.
      apply flat_map_ext. intros x. rewrite <- Hvalid.
      apply yields_for_valid_refs.
Qed.

(** X5. With find specifications that have no location, over a tree whose
    enumerations end by themselves or with [AccessError], the search
    yields, for each file entry in depth-first order (an entry before its
    sub file entries, these in the order of enumeration), the path
    specification of the entry once per find specification whose type and
    allocation checks pass, in the order of the find specifications; it
    ends without an exception and changes no find specification. *)
Theorem search_without_location (st : store) e find_specs (d : Z) :
  Forall (fun s => FindSpec._location_segments s = None) st ->
  enumerable e ->
  _FindInFileEntry e find_specs d st =
  (mkRun (flat_map (yields_for st find_specs) (walk e)) None, st).
Proof. intros Hst He. apply _FindInFileEntry_without_location; assumption. Qed.

Lemma flat_map_if_singleton {A B} (f : A -> bool) (g : A -> B) l :
  flat_map (fun x => (if f x then [g x] else []) ++ []) l =
  map g (List.filter f l).
Proof.
  induction l as [|x l IH]; simpl; [reflexivity|].
  destruct (f x); simpl; rewrite IH; reflexivity.
Qed.

(** X6. [Find([])] over a tree whose enumerations end by themselves or with
    [AccessError] yields exactly the path specifications of the allocated
    file entries that are a device, directory, file, link, pipe or socket,
    each once, in depth-first order, the starting file entry first. *)
Theorem Find_empty_list_yields_allocated
    (self : FileSystemSearcher.t) file_entry :
  start_file_entry self = Some file_entry ->
  enumerable file_entry ->
  fst (Find self (Some [])) =
  mkRun (map path_spec
           (List.filter (fun x => has_entry_type x && IsAllocated x)
              (walk file_entry)))
        None.
Proof.
  intros Hstart He. unfold Find. simpl. rewrite Hstart.
  rewrite _FindInFileEntry_without_location;
    [|repeat constructor|exact He]. simpl. f_equal.
  unfold yields_for. simpl.
  rewrite <- flat_map_if_singleton. apply flat_map_ext. intros x.
  unfold FindSpec.final_checks, FindSpec._CheckFileEntryType,
    FindSpec._CheckIsAllocated, FindSpec._CheckIsDevice,
    FindSpec._CheckIsDirectory, FindSpec._CheckIsFile, FindSpec._CheckIsLink,
    FindSpec._CheckIsPipe, FindSpec._CheckIsSocket, FindSpec.check_type,
    has_entry_type. simpl.
  destruct (IsDevice x || IsDirectory x || IsFile x || IsLink x || IsPipe x
            || IsSocket x); simpl; [|reflexivity].
  destruct (IsAllocated x); reflexivity.
Qed.

(** *** What is yielded, where the search stops, what it does not look at *)

Lemma match_find_specs_yields e d find_specs sub (st : store) :
  Forall (fun ps => ps = path_spec e)
    (fst (fst (match_find_specs e d find_specs sub st))).
Proof.
  revert sub st. induction find_specs as [|r l IH]; intros sub st.
  - constructor.
  - rewrite match_find_specs_cons.
    destruct (st !! r) as [s|]; [|apply IH].
    destruct (FindSpec.Matches s e d) as [[b|x] s']; [|constructor].
    specialize (IH (if negb (FindSpec.AtMaximumDepth s' d)
                    then sub ++ [r] else sub) (<[r:=s']> st)).
    destruct (match_find_specs e d l _ _) as [[ys res] st'']. simpl in *.
    apply Forall_app; split; [|exact IH].
    destruct b; repeat constructor.
Qed.

Lemma for_sub_file_entries_yields visit err l (Q : PathSpec -> Prop) :
  Forall (fun c => forall st : store, Forall Q (yielded (fst (visit c st)))) l ->
  forall st, Forall Q (yielded (fst (for_sub_file_entries visit err l st))).
Proof.
  induction 1 as [|c l Hc _ IH]; intros st; [constructor|].
  rewrite for_sub_file_entries_cons. specialize (Hc st).
  destruct (visit c st) as [[ys [x|]] st']; simpl in *; [exact Hc|].
  specialize (IH st').
  destruct (for_sub_file_entries visit err l st') as [[ys' e'] st''].
  simpl in *. apply Forall_app; auto.
Qed.

(** X4. The search yields nothing but path specifications of file entries
    of the tree it is started on, whatever the find specifications and
    however it ends. *)
Theorem search_yields_entries_of_tree e find_specs (d : Z) (st : store) :
  Forall (fun ps => exists x, In x (walk e) /\ ps = path_spec x)
    (yielded (fst (_FindInFileEntry e find_specs d st))).
Proof.
  revert find_specs d st.
  induction e as [e IH] using FileEntry_subs_ind. intros find_specs d st.
  rewrite _FindInFileEntry_unfold.
  pose proof (match_find_specs_yields e d find_specs [] st) as Hys.
  destruct (match_find_specs e d find_specs [] st) as [[ys res] st1].
  simpl in Hys.
  assert (Hhere : Forall (fun ps => exists x, In x (walk e) /\ ps = path_spec x) ys).
  { eapply Forall_impl; [exact Hys|]. intros ps ->. exists e.
    split; [rewrite walk_unfold; left|]; reflexivity. }
  destruct res as [[|r sub]|x]; simpl; try exact Hhere.
  pose proof (for_sub_file_entries_yields
                (fun c => _FindInFileEntry c (r :: sub) (d + 1))
                (sub_file_entries_error e) (sub_file_entries e)
                (fun ps => exists x, In x (walk e) /\ ps = path_spec x)) as Hsubs.
  destruct (for_sub_file_entries _ _ _ st1) as [rc st2] eqn:Hrc. simpl.
  apply Forall_app; split; [exact Hhere|].
  specialize (Hsubs ltac:(
    rewrite Forall_forall in IH; apply Forall_forall; intros c Hc st';
    eapply Forall_impl; [apply (IH c Hc)|];
    intros ps (x & Hx & ->); exists x; split; [|reflexivity];
    rewrite walk_unfold; right; apply in_flat_map; exists c;
    split; [apply list_elem_of_In|]; assumption) st1).
  rewrite Hrc in Hsubs. exact Hsubs.
Qed.

Lemma match_find_specs_at_maximum_depth e d find_specs :
  forall sub (st : store),
    Forall (fun r => forall s, st !! r = Some s ->
                     FindSpec.AtMaximumDepth s d = true) find_specs ->
    match snd (fst (match_find_specs e d find_specs sub st)) with
    | Ret sub' => sub' = sub
    | Raise _ => True
    end.
Proof.
  induction find_specs as [|r l IH]; intros sub st Hmax; [reflexivity|].
  apply Forall_cons in Hmax as [Hr Hl].
  rewrite match_find_specs_cons.
  destruct (st !! r) as [s|] eqn:Hs; [|apply IH, Hl].
  pose proof (Matches_keeps_depth s e d) as [_ Hkeep].
  destruct (FindSpec.Matches s e d) as [[b|x] s']; [|exact I].
  simpl in Hkeep. rewrite Hkeep, (Hr s eq_refl). simpl negb. cbv iota.
  specialize (IH sub (<[r:=s']> st)).
  destruct (match_find_specs e d l sub _) as [[ys res] st'']. simpl in *.
  apply IH. rewrite Forall_forall in Hl |- *. intros r' Hr' s0 Hs0.
  destruct (decide (r = r')) as [<-|Hne].
  - rewrite list_lookup_insert_eq in Hs0 by (eapply lookup_lt_Some, Hs).
    injection Hs0 as <-. rewrite Hkeep. apply Hr. reflexivity.
  - rewrite list_lookup_insert_ne in Hs0 by exact Hne. eapply Hl; eauto.
Qed.

(** X7. Where every find specification is at its maximum depth the search
    does not descend: the sub file entries are not enumerated, so the run
    is the same whatever the file entry has below it and whatever error
    enumerating it would raise. *)
Theorem search_stops_at_maximum_depth e e' find_specs (d : Z) (st : store) :
  Forall (fun r => forall s, st !! r = Some s ->
                   FindSpec.AtMaximumDepth s d = true) find_specs ->
  same_attributes e e' ->
  _FindInFileEntry e find_specs d st = _FindInFileEntry e' find_specs d st.
Proof.
  intros Hmax Hattr. rewrite !_FindInFileEntry_unfold.
  rewrite <- (match_find_specs_same_attributes e e' d find_specs [] st Hattr).
  pose proof (match_find_specs_at_maximum_depth e d find_specs [] st Hmax) as H.
  destruct (match_find_specs e d find_specs [] st) as [[ys [sub|x]] st1];
    simpl in H; [subst sub|]; reflexivity.
Qed.

Lemma match_find_specs_off_depth e e' d find_specs :
  forall sub (st : store),
    Forall (fun r => forall s, st !! r = Some s ->
                     FindSpec.ready s /\
                     d <> FindSpec._number_of_location_segments s) find_specs ->
    match_find_specs e d find_specs sub st =
    match_find_specs e' d find_specs sub st.
Proof.
  induction find_specs as [|r l IH]; intros sub st Hoff; [reflexivity|].
  apply Forall_cons in Hoff as [Hr Hl].
  rewrite !match_find_specs_cons.
  destruct (st !! r) as [s|] eqn:Hs; [|apply IH, Hl].
  destruct (Hr s eq_refl) as [Hready Hd].
  pose proof (ready_well_formed _ Hready) as Hwf.
  pose proof Hwf as (segs & Hsegs & _).
  pose proof (Matches_well_formed_off_depth s segs e d Hwf Hsegs Hd) as He.
  pose proof (Matches_well_formed_off_depth s segs e' d Hwf Hsegs Hd) as He'.
  pose proof (Matches_spec_after s e e' d) as Hafter.
  pose proof (Matches_keeps_depth s e d) as [Hn _].
  pose proof (FindSpec.ready_Matches s e d Hready) as Hready'.
  destruct (FindSpec.Matches s e d) as [res s1],
           (FindSpec.Matches s e' d) as [res' s1'].
  simpl in He, He', Hafter, Hn, Hready'. subst res res' s1'.
  destruct (FindSpec.compile_raises_at s segs d); [reflexivity|]. simpl app.
  rewrite IH; [reflexivity|].
  rewrite Forall_forall in Hl |- *. intros r' Hr' s0 Hs0.
  destruct (decide (r = r')) as [<-|Hne].
  - rewrite list_lookup_insert_eq in Hs0 by (eapply lookup_lt_Some, Hs).
    injection Hs0 as <-. split; [exact Hready'|]. rewrite Hn. exact Hd.
  - rewrite list_lookup_insert_ne in Hs0 by exact Hne. eapply Hl; eauto.
Qed.

(** X8. Above the depth of their last segment, ready find specifications
    do not look at the file entry: at a depth that is the number of
    location segments of none of them, two file entries with the same sub
    file entries give the same run, whatever their names, types and
    allocation states.  The segments before the last one do not restrict
    the search. *)
Theorem search_ignores_entries_above_last_segment
    e e' find_specs (d : Z) (st : store) :
  Forall (fun r => forall s, st !! r = Some s ->
                   FindSpec.ready s /\
                   d <> FindSpec._number_of_location_segments s) find_specs ->
  sub_file_entries e = sub_file_entries e' ->
  sub_file_entries_error e = sub_file_entries_error e' ->
  _FindInFileEntry e find_specs d st = _FindInFileEntry e' find_specs d st.
Proof.
  intros Hoff Hsubs Herr. rewrite !_FindInFileEntry_unfold.
  rewrite (match_find_specs_off_depth e e' d find_specs [] st Hoff).
  rewrite Hsubs, Herr. reflexivity.
Qed.

(** *** The search for one location *)

Lemma for_sub_file_entries_invariant visit err l
    (f : FileEntry -> list PathSpec) (I : store -> Prop) :
  Forall (fun c => forall st, I st ->
            exists st', visit c st = (mkRun (f c) None, st') /\ I st') l ->
  forall st, I st ->
    exists st', for_sub_file_entries visit err l st
                  = (mkRun (flat_map f l) err, st') /\ I st'.
Proof.
  induction 1 as [|c l Hc _ IH]; intros st Hst; [exists st; auto|].
  rewrite for_sub_file_entries_cons.
  destruct (Hc st Hst) as (st1 & -> & Hst1). simpl.
  destruct (IH st1 Hst1) as (st2 & -> & Hst2). exists st2. auto.
Qed.

Lemma map_filter_flat_map {A B C} (g : B -> C) (P : B -> bool)
    (h : A -> list B) l :
  flat_map (fun x => map g (List.filter P (h x))) l =
  map g (List.filter P (flat_map h l)).
Proof.
  induction l as [|x l IH]; simpl; [reflexivity|].
  rewrite IH, List.filter_app, map_app. reflexivity.
Qed.

Lemma _FindInFileEntry_one_location s segs :
  FindSpec.well_formed s ->
  FindSpec._location_segments s = Some segs ->
  (forall d, 0 < d <= FindSpec._number_of_location_segments s ->
             FindSpec.compile_raises_at s segs d = None) ->
  forall (k : nat) e s',
    Z.of_nat k <= FindSpec._number_of_location_segments s ->
    enumerable e ->
    FindSpec.same_but_memoized s s' ->
    exists s'',
      _FindInFileEntry e [0%nat]
        (FindSpec._number_of_location_segments s - Z.of_nat k) [s'] =
      (mkRun
         (map path_spec
            (List.filter
               (fun x =>
                  FindSpec.name_matches s segs x
                    (FindSpec._number_of_location_segments s)
                  && FindSpec.final_checks s x)
               (entries_below k e)))
         None, [s'']) /\
      FindSpec.same_but_memoized s s''.
Proof.
  intros Hready Hsegs Hcompiles.
  set (n := FindSpec._number_of_location_segments s).
  assert (Hnone : forall d, 0 <= d <= n ->
                  FindSpec.compile_raises_at s segs d = None).
  { intros d Hd. destruct (Z.eq_dec d 0) as [->|Hd0]; [reflexivity|].
    apply Hcompiles. fold n. lia. }
  induction k as [|k IH]; intros e s' Hk He Hmemo;
    rewrite _FindInFileEntry_unfold, match_find_specs_cons;
    change ([s'] !! 0%nat) with (Some s');
    set (d := n - Z.of_nat _).
  - destruct (Matches_memoized s s' e d Hmemo) as [Hfst Hmemo''].
    rewrite (Matches_with_location s segs e d Hready Hsegs) in Hfst.
    rewrite Hnone in Hfst by (unfold d; lia).
    pose proof Hmemo'' as (_ & _ & _ & _ & Hn'' & Hsegs'').
    destruct (FindSpec.Matches s' e d) as [res s'']. simpl in Hfst, Hn'', Hsegs''.
    subst res. exists s''. split; [|exact Hmemo''].
    rewrite Hsegs in Hsegs''.
    unfold FindSpec.AtMaximumDepth. rewrite Hn''. fold n.
    destruct (FindSpec._location_segments s''); [|contradiction].
    assert (Hd : d = n) by (unfold d; lia). rewrite Hd, Z.eqb_refl. simpl.
    destruct (FindSpec.name_matches s segs e n && FindSpec.final_checks s e);
      reflexivity.
  - destruct (Matches_memoized s s' e d Hmemo) as [Hfst Hmemo''].
    rewrite (Matches_with_location s segs e d Hready Hsegs) in Hfst.
    rewrite Hnone in Hfst by (unfold d; lia).
    pose proof Hmemo'' as (_ & _ & _ & _ & Hn'' & Hsegs'').
    destruct (FindSpec.Matches s' e d) as [res s'']. simpl in Hfst, Hn'', Hsegs''.
    subst res. rewrite Hsegs in Hsegs''.
    unfold FindSpec.AtMaximumDepth. rewrite Hn''. fold n.
    destruct (FindSpec._location_segments s''); [|contradiction].
    assert (Hd : (d =? n) = false) by (apply Z.eqb_neq; unfold d; lia).
    rewrite Hd. simpl.
    apply enumerable_unfold in He as [Herr Hsubs].
    destruct (for_sub_file_entries_invariant
                (fun c => _FindInFileEntry c [0%nat] (d + 1))
                (sub_file_entries_error e) (sub_file_entries e)
                (fun c => map path_spec
                   (List.filter
                      (fun x => FindSpec.name_matches s segs x n
                                && FindSpec.final_checks s x)
                      (entries_below k c)))
                (fun st => exists t, st = [t] /\ FindSpec.same_but_memoized s t))
      with (st := [s'']) as (st' & Hloop & t & -> & Ht).
    + rewrite Forall_forall in Hsubs. apply Forall_forall.
      intros c Hc st (t & -> & Ht).
      replace (d + 1) with (n - Z.of_nat k) by (unfold d; lia).
      destruct (IH c t ltac:(lia) (Hsubs c Hc) Ht) as (t' & Heq & Ht').
      exists [t']. split; [exact Heq|]. eauto.
    + eauto.
    + simpl in Hloop. rewrite Hloop. simpl. rewrite Herr.
      exists t. split; [|exact Ht].
      rewrite map_filter_flat_map. reflexivity.
Qed.

(** X9. The search for one find specification with a location of [n]
    segments, whose segment list is as [Initialize] and its own [Matches]
    calls leave it and none of whose segments raises an error that is not
    handled when it is compiled, over a tree whose enumerations end by
    themselves or with [AccessError]: it yields exactly the path
    specifications of the file entries [n] levels below the starting file
    entry whose name matches the last segment and that pass the type and
    allocation checks, in the order of enumeration; the names of the
    entries above them are not compared with the segments before the last.
    The search ends without an exception and leaves the find specification
    with segments memoized. *)
Theorem search_with_one_location s segs e :
  FindSpec.well_formed s ->
  FindSpec._location_segments s = Some segs ->
  (forall d, 0 < d <= FindSpec._number_of_location_segments s ->
             FindSpec.compile_raises_at s segs d = None) ->
  enumerable e ->
  exists s',
    _FindInFileEntry e [0%nat] 0 [s] =
    (mkRun
       (map path_spec
          (List.filter
             (fun x =>
                FindSpec.name_matches s segs x
                  (FindSpec._number_of_location_segments s)
                && FindSpec.final_checks s x)
             (entries_below
                (Z.to_nat (FindSpec._number_of_location_segments s)) e)))
       None, [s']) /\
    FindSpec.same_but_memoized s s'.
Proof.
  intros Hwf Hsegs Hcompiles He.
  pose proof Hwf as (segs' & _ & Hn & _).
  assert (Hpos : 0 <= FindSpec._number_of_location_segments s)
    by (rewrite Hn; unfold len; lia).
  destruct (_FindInFileEntry_one_location s segs Hwf Hsegs Hcompiles
              (Z.to_nat (FindSpec._number_of_location_segments s)) e s
              ltac:(lia) He (same_but_memoized_refl s)) as (s' & Heq & Hs').
  exists s'. split; [|exact Hs'].
  rewrite <- Heq. f_equal. lia.
Qed.

End SearcherProperties.

(** ** AESDecrypter *)

Section SliceProperties.
Context {A : Type}.
Implicit Types s : list A.

Lemma len_nonneg s : 0 <= len s.
Proof. unfold len. lia. Qed.


(** [s[-k:]] and [s[:-k]] for [0 < k <= len(s)]. *)
Lemma slice_index_negative s (k : Z) :
  0 < k <= len s -> slice_index s (- k) = Z.to_nat (len s - k).
Proof.
  intros Hk. unfold slice_index.
  destruct (Z.ltb_spec (- k) 0); [|lia]. f_equal. lia.
Qed.

Lemma len_take s (n : Z) :
  0 <= n <= len s -> len (take (Z.to_nat n) s) = n.
Proof. unfold len. intros Hn. rewrite length_take. lia. Qed.

Lemma len_drop s (n : Z) :
  0 <= n <= len s -> len (drop (Z.to_nat n) s) = len s - n.
Proof. unfold len. intros Hn. rewrite length_drop. lia. Qed.

Lemma len_zero_nil s : len s = 0 -> s = [].
Proof. unfold len. destruct s; simpl; [reflexivity|lia]. Qed.

End SliceProperties.

Section AESProperties.
Context {CL : CipherLibrary}.
Import AESDecrypter.

(** The block-aligned prefix of the data and the tail behind it. *)
Lemma aligned_split (bs : Z) (data : list byte) :
  0 < bs ->
  let r := len data mod bs in
  0 <= r < bs /\ r <= len data /\ (len data - r) mod bs = 0.
Proof.
  intros Hbs r. pose proof (len_nonneg data) as Hlen.
  pose proof (Z.mod_pos_bound (len data) bs Hbs) as Hr.
  pose proof (Z.mod_le (len data) bs Hlen Hbs) as Hle.
  repeat split; try apply Hr; try exact Hle.
  subst r. rewrite Zminus_mod, Zmod_mod, Z.sub_diag. apply Zmod_0_l.
Qed.

Lemma Decrypt_eq (self : t) (encrypted_data : list byte) :
  0 < block_size (_algorithm self) ->
  let n := Z.to_nat (len encrypted_data
                     - len encrypted_data mod block_size (_algorithm self)) in
  Decrypt self encrypted_data =
  Ret ((snd (update (_cipher_context self) (take n encrypted_data)),
        drop n encrypted_data),
       mk (_algorithm self)
          (fst (update (_cipher_context self) (take n encrypted_data)))).
Proof.
  intros Hbs n. unfold Decrypt.
  destruct (aligned_split _ encrypted_data Hbs) as (Hr & Hle & _).
  set (r := len encrypted_data mod block_size (_algorithm self)) in *.
  destruct (Z.eqb_spec (block_size (_algorithm self)) 0); [lia|].
  destruct (Z.eqb_spec (- r) 0) as [H0|H0]; simpl negb; cbv iota.
  - assert (Hn : n = length encrypted_data) by (unfold n, len; lia).
    rewrite Hn, take_ge, drop_ge by lia.
    destruct (update _ _); reflexivity.
  - unfold slice_from, slice_to.
    rewrite slice_index_negative by lia. fold n.
    destruct (update _ _); reflexivity.
Qed.

(** [Decrypt] holds back the bytes behind the last whole multiple of
    [self._algorithm.block_size]: the remaining data are the last
    [len(data) % block_size] bytes, and the decrypted data are what the
    cipher context returns for the bytes before them. *)
Lemma Decrypt_splits_at_block_size (self : t) (encrypted_data : list byte) :
  0 < block_size (_algorithm self) ->
  let r := len encrypted_data mod block_size (_algorithm self) in
  let whole := take (Z.to_nat (len encrypted_data - r)) encrypted_data in
  let tail := drop (Z.to_nat (len encrypted_data - r)) encrypted_data in
  Decrypt self encrypted_data =
    Ret ((snd (update (_cipher_context self) whole), tail),
         mk (_algorithm self) (fst (update (_cipher_context self) whole))) /\
  whole ++ tail = encrypted_data /\
  len whole = len encrypted_data - r /\
  len tail = r /\
  (r <> 0 -> tail <> []) /\
  (r = 0 -> tail = []).
Proof.
  intros Hbs r whole tail.
  destruct (aligned_split _ encrypted_data Hbs) as (Hr & Hle & _). fold r in Hr, Hle.
  assert (Htail : len tail = r).
  { unfold tail. rewrite len_drop by lia. lia. }
  split; [apply Decrypt_eq, Hbs|].
  split; [apply take_drop|].
  split; [unfold whole; apply len_take; lia|].
  split; [exact Htail|]. split.
  - intros Hne Hnil. rewrite Hnil in Htail. unfold len in Htail. simpl in Htail. lia.
  - intros H0. apply len_zero_nil. lia.
Qed.

(** C3 (the code departs from it). [Decrypt] takes the block size from
    [self._algorithm.block_size], and the algorithm object of the cipher
    library holds the block size of AES there in bits: 128, not the 16
    bytes of the claim. So the data are split at a multiple of 128 bytes:
    the tail held back has [len(data) % 128] bytes, and a call with fewer
    than 128 bytes decrypts nothing and holds all of them back. The tail
    of 16 bytes, a whole block of the cipher, is not empty, and of 23
    bytes none is decrypted. *)
Theorem Decrypt_block_size_in_bits (self : t) (encrypted_data : list byte) :
  block_size (_algorithm self) = 128 ->
  let r := len encrypted_data mod 128 in
  let whole := take (Z.to_nat (len encrypted_data - r)) encrypted_data in
  let tail := drop (Z.to_nat (len encrypted_data - r)) encrypted_data in
  Decrypt self encrypted_data =
    Ret ((snd (update (_cipher_context self) whole), tail),
         mk (_algorithm self) (fst (update (_cipher_context self) whole))) /\
  len tail = r /\
  (len encrypted_data < 128 -> whole = [] /\ tail = encrypted_data) /\
  (len encrypted_data = 16 -> tail <> []).
Proof.
  intros Hbs r whole tail.
  assert (Hpos : 0 < block_size (_algorithm self)) by lia.
  destruct (Decrypt_splits_at_block_size self encrypted_data Hpos)
    as (Heq & _ & _ & Htail & Hne & _).
  rewrite Hbs in Heq, Htail, Hne. fold r in Heq, Htail, Hne.
  fold whole in Heq. fold tail in Heq, Htail, Hne.
  split; [exact Heq|]. split; [exact Htail|]. split.
  - intros Hlt. pose proof (len_nonneg encrypted_data) as Hlen.
    assert (Hr : r = len encrypted_data)
      by (unfold r; apply Z.mod_small; lia).
    unfold whole, tail. rewrite Hr, Z.sub_diag. split; reflexivity.
  - intros H16. apply Hne. unfold r. rewrite H16. discriminate.
Qed.



(** C9, as the code has it. [__init__] raises [ValueError] when the key is
    missing, the cipher mode is not one of CBC, CFB, ECB and OFB, or the
    mode is not ECB and the initialization vector is missing.  With none of
    these the outcome is that of the cipher library, called with the key
    and the mode object: the decrypter is built when the library accepts
    both and the library's error is raised when it does not.  In
    particular ECB with a key the library accepts and no initialization
    vector builds a decrypter. *)
Theorem AESDecrypter_init_checks_arguments_then_library
    (cipher_mode : option cipher_mode_t)
    (initialization_vector key : option (list byte)) :
  (argument_missing cipher_mode initialization_vector key = true ->
     __init__ cipher_mode initialization_vector key = Raise ValueError) /\
  (argument_missing cipher_mode initialization_vector key = false ->
     exists key_bytes mode,
       key = Some key_bytes /\
       select_mode cipher_mode initialization_vector = Some mode /\
       __init__ cipher_mode initialization_vector key =
         new_context key_bytes mode) /\
  (forall key_bytes a c,
     key_bytes <> [] ->
     algorithms_AES key_bytes = Ret a ->
     decryptor a modes_ECB = Ret c ->
     __init__ (Some ENCRYPTION_MODE_ECB) None (Some key_bytes) = Ret (mk a c)).
Proof.
  unfold argument_missing, __init__. split; [|split].
  - destruct key as [[|b k]|]; simpl; try reflexivity.
    destruct (negb (_ENCRYPTION_MODES cipher_mode)); simpl; [reflexivity|].
    intros ->. reflexivity.
  - destruct key as [[|b k]|]; simpl; try discriminate.
    destruct cipher_mode as [[| | | |tag]|]; simpl; try discriminate;
      destruct (not_bytes initialization_vector); simpl; try discriminate;
      intros _; do 2 eexists; repeat split; reflexivity.
  - intros [|b k] a c Hne Ha Hc; [congruence|]. simpl.
    unfold new_context. rewrite Ha. simpl. rewrite Hc. reflexivity.
Qed.

(** *** Decrypting in any number of chunks *)





End AESProperties.

(** ** The TSK partition helper *)

Section TskProperties.
Context {PB : Builtins} {TSK : Pytsk3}.
Import tsk_partition.

Lemma parse_location_no_partition (location : option string) :
  names_partition location = false ->
  snd (parse_location location) = None.
Proof.
  unfold names_partition, parse_location.
  destruct location as [l|]; [|reflexivity].
  destruct (startswith l "/p"); [|reflexivity].
  destruct (int10 (string_drop 2 l)) as [n|]; [|reflexivity].
  rewrite andb_true_l. intros Hn. apply Z.leb_gt in Hn.
  destruct (Z.ltb_spec (n - 1) 0); [reflexivity|lia].
Qed.

(** C10. A path specification without part_index, without start_offset
    and without a location that reads as [/p<N>] with [1 <= N] (no
    location, another prefix, a suffix that is no number, or a number below
    1) selects no part: the result is [(None, None)] for every volume. *)
Theorem GetTSKVsPartByPathSpec_without_selector
    (tsk_volume : Volume_Info) (path_spec : PathSpec) :
  part_index path_spec = None ->
  start_offset path_spec = None ->
  names_partition (location path_spec) = false ->
  GetTSKVsPartByPathSpec tsk_volume path_spec = (None, None).
Proof.
  intros Hpart Hoffset Hloc. unfold GetTSKVsPartByPathSpec.
  rewrite Hpart, Hoffset.
  pose proof (parse_location_no_partition _ Hloc) as Hparse.
  destruct (parse_location (location path_spec)) as [partition_index l].
  simpl in Hparse. rewrite Hparse. reflexivity.
Qed.

(** *** Which part each selector finds *)

Lemma is_some_eq_None (y : Z) : is_some_eq None y = false.
Proof. reflexivity. Qed.

(** The loop keeps the partition count non-negative and bounded by the
    allocated parts seen, and leaves a part of the list behind. *)
Lemma find_part_invariant partition_index part_index start_offset bps l :
  forall s,
    0 <= current_partition_index s ->
    let s' := find_part partition_index part_index start_offset bps l s in
    current_partition_index s <= current_partition_index s'
      <= current_partition_index s + len (allocated_parts l) /\
    (l = [] /\ s' = s \/
     exists p, tsk_vs_part s' = Some p /\ In p l).
Proof.
  induction l as [|q rest IH]; intros s Hs; simpl.
  - unfold len; simpl. split; [lia|]. left; auto.
  - unfold allocated_parts, len in *. simpl List.filter.
    destruct (TSKVsPartIsAllocated q) eqn:Hq; simpl andb; simpl length.
    + destruct (is_some_eq partition_index (current_partition_index s));
        [simpl; split; [lia|right; eauto]|].
      destruct (is_some_eq part_index (current_part_index s));
        [simpl; split; [lia|right; eauto]|].
      destruct (match start_offset with Some _ => _ | None => _ end);
        [simpl; split; [lia|right; eauto]|].
      specialize (IH (mkLoop (Some q) (current_part_index s + 1)
                             (current_partition_index s + 1))).
      simpl in IH. destruct IH as [Hb Hp]; [lia|]. split; [lia|].
      right. destruct Hp as [[-> ->]|(p & Hp & Hin)]; simpl; eauto.
    + destruct (is_some_eq part_index (current_part_index s));
        [simpl; split; [lia|right; eauto]|].
      destruct (match start_offset with Some _ => _ | None => _ end);
        [simpl; split; [lia|right; eauto]|].
      specialize (IH (mkLoop (Some q) (current_part_index s + 1)
                             (current_partition_index s))).
      simpl in IH. destruct IH as [Hb Hp]; [lia|]. split; [lia|].
      right. destruct Hp as [[-> ->]|(p & Hp & Hin)]; simpl; eauto.
Qed.

(** X11. Whatever the path specification selects by, the part returned is a
    part of the volume, it comes with a partition index exactly when it is
    allocated, the index lies between 0 and the number of allocated parts,
    and no index is returned without a part. *)
Theorem GetTSKVsPartByPathSpec_returns_part_of_volume
    (tsk_volume : Volume_Info) (path_spec : PathSpec) :
  match GetTSKVsPartByPathSpec tsk_volume path_spec with
  | (Some p, Some k) =>
      In p (parts tsk_volume) /\ TSKVsPartIsAllocated p = true /\
      0 <= k <= len (allocated_parts (parts tsk_volume))
  | (Some p, None) =>
      In p (parts tsk_volume) /\ TSKVsPartIsAllocated p = false
  | (None, Some _) => False
  | (None, None) => True
  end.
Proof.
  unfold GetTSKVsPartByPathSpec.
  destruct (match part_index path_spec with
            | Some _ => _ | None => _ end) as [partition_index l].
  do 2 match goal with
       | |- context [if ?b then (None, None) else _] => destruct b; [exact I|]
       end.
  destruct (0 <? len (parts tsk_volume)); simpl; [|exact I].
  pose proof (find_part_invariant partition_index (part_index path_spec)
                (start_offset path_spec)
                (TSKVolumeGetBytesPerSector tsk_volume) (parts tsk_volume)
                (mkLoop None 0 0)) as H.
  simpl in H. destruct H as [Hb Hp]; [lia|].
  destruct (find_part _ _ _ _ _ _) as [v cur cpi]; simpl in *.
  destruct Hp as [[_ [= -> _ _]]|(p & -> & Hin)]; [exact I|].
  destruct (len (parts tsk_volume) <=? cur); [exact I|].
  destruct (TSKVsPartIsAllocated p) eqn:Hp; simpl; auto.
Qed.

(** X12. A part index outside the parts of the volume selects nothing. *)
Theorem GetTSKVsPartByPathSpec_part_index_out_of_range
    (tsk_volume : Volume_Info) (path_spec : PathSpec) (i : Z) :
  part_index path_spec = Some i ->
  i < 0 \/ len (parts tsk_volume) <= i ->
  GetTSKVsPartByPathSpec tsk_volume path_spec = (None, None).
Proof.
  intros Hi Hrange. unfold GetTSKVsPartByPathSpec. rewrite Hi.
  destruct (parts tsk_volume) as [|q rest] eqn:Hparts; [reflexivity|].
  assert (Hpos : (0 <? len (q :: rest)) = true).
  { apply Z.ltb_lt. unfold len. simpl. lia. }
  rewrite Hpos.
  assert (Hout : (i <? 0) || (len (q :: rest) <=? i) = true).
  { apply orb_true_iff. destruct Hrange; [left; apply Z.ltb_lt|right; apply Z.leb_le]; lia. }
  rewrite Hout. reflexivity.
Qed.

Lemma find_part_cons partition_index part_index start_offset bps q rest s :
  find_part partition_index part_index start_offset bps (q :: rest) s =
  if TSKVsPartIsAllocated q
     && is_some_eq partition_index (current_partition_index s)
  then mkLoop (Some q) (current_part_index s) (current_partition_index s)
  else
    let cpi :=
      if TSKVsPartIsAllocated q then current_partition_index s + 1
      else current_partition_index s in
    if is_some_eq part_index (current_part_index s)
    then mkLoop (Some q) (current_part_index s) cpi
    else if match start_offset with
            | Some offset => starts_at bps offset q
            | None => false
            end
    then mkLoop (Some q) (current_part_index s) cpi
    else find_part partition_index part_index start_offset bps rest
           (mkLoop (Some q) (current_part_index s + 1) cpi).
Proof. destruct start_offset; reflexivity. Qed.

Lemma find_part_by_part_index bps l :
  forall v cur cpi i p,
    cur <= i ->
    l !! Z.to_nat (i - cur) = Some p ->
    find_part None (Some i) None bps l (mkLoop v cur cpi) =
    mkLoop (Some p) i
      (cpi + len (allocated_parts (take (S (Z.to_nat (i - cur))) l))).
Proof.
  induction l as [|q rest IH]; intros v cur cpi i p Hcur Hp; [discriminate|].
  rewrite find_part_cons, is_some_eq_None, andb_false_r. cbv zeta.
  simpl is_some_eq. simpl current_part_index. simpl current_partition_index.
  unfold allocated_parts, len. simpl take. simpl List.filter.
  destruct (Z.eqb_spec i cur) as [->|Hne].
  - replace (Z.to_nat (cur - cur)) with O in * by lia.
    injection Hp as ->. rewrite take_0.
    destruct (TSKVsPartIsAllocated p); simpl; f_equal; lia.
  - destruct (Z.to_nat (i - cur)) as [|k] eqn:Hk; [lia|].
    simpl in Hp.
    rewrite (IH (Some q) (cur + 1) _ i p) by
      (try lia; replace (Z.to_nat (i - (cur + 1))) with k by lia; exact Hp).
    replace (Z.to_nat (i - (cur + 1))) with k by lia.
    unfold allocated_parts, len.
    destruct (TSKVsPartIsAllocated q); simpl length; f_equal; lia.
Qed.

(** X13. A part index alone selects the part at that position of the
    volume; when the part is allocated, the partition index returned is
    the number of allocated parts up to and including it. *)
Theorem GetTSKVsPartByPathSpec_by_part_index
    (tsk_volume : Volume_Info) (path_spec : PathSpec) (i : Z)
    (p : TSK_VS_PART_INFO) :
  part_index path_spec = Some i ->
  start_offset path_spec = None ->
  0 <= i ->
  parts tsk_volume !! Z.to_nat i = Some p ->
  GetTSKVsPartByPathSpec tsk_volume path_spec =
  (Some p,
   if TSKVsPartIsAllocated p
   then Some (len (allocated_parts (take (S (Z.to_nat i)) (parts tsk_volume))))
   else None).
Proof.
  intros Hi Hoff Hpos Hp. unfold GetTSKVsPartByPathSpec. rewrite Hi, Hoff.
  pose proof (lookup_lt_Some _ _ _ Hp) as Hlt.
  assert (Hn : (0 <? len (parts tsk_volume)) = true)
    by (apply Z.ltb_lt; unfold len; lia).
  rewrite Hn.
  assert (Hin : (i <? 0) || (len (parts tsk_volume) <=? i) = false).
  { apply orb_false_iff. split; [apply Z.ltb_ge|apply Z.leb_gt];
      unfold len; lia. }
  rewrite Hin. simpl andb. cbv iota.
  rewrite (find_part_by_part_index _ _ None 0 0 i p) by
    (try lia; rewrite Z.sub_0_r; exact Hp).
  simpl tsk_vs_part. simpl current_part_index. simpl current_partition_index.
  rewrite Z.sub_0_r.
  assert (Hle : (len (parts tsk_volume) <=? i) = false)
    by (apply Z.leb_gt; unfold len; lia).
  rewrite Hle. destruct (TSKVsPartIsAllocated p); reflexivity.
Qed.

Lemma find_part_by_partition_index bps l :
  forall v cur cpi k,
    0 <= cpi <= k ->
    let s' := find_part (Some k) None None bps l (mkLoop v cur cpi) in
    match allocated_parts l !! Z.to_nat (k - cpi) with
    | Some p =>
        tsk_vs_part s' = Some p /\ current_partition_index s' = k /\
        cur <= current_part_index s' < cur + len l
    | None => current_part_index s' = cur + len l
    end.
Proof.
  induction l as [|q rest IH]; intros v cur cpi k Hk; cbv zeta.
  - simpl. unfold len. simpl. lia.
  - rewrite find_part_cons. cbv zeta. simpl is_some_eq.
    simpl current_part_index. simpl current_partition_index.
    unfold allocated_parts. simpl List.filter.
    assert (Hlen : len (q :: rest) = 1 + len rest) by (unfold len; simpl; lia).
    pose proof (len_nonneg rest) as Hrest.
    destruct (TSKVsPartIsAllocated q) eqn:Hq; simpl andb.
    + destruct (Z.eqb_spec k cpi) as [->|Hne].
      * replace (Z.to_nat (cpi - cpi)) with O by lia. simpl. repeat split; lia.
      * destruct (Z.to_nat (k - cpi)) as [|j] eqn:Hj; [lia|]. simpl lookup.
        specialize (IH (Some q) (cur + 1) (cpi + 1) k).
        replace (Z.to_nat (k - (cpi + 1))) with j in IH by lia.
        cbv zeta in IH. fold (allocated_parts rest).
        destruct (allocated_parts rest !! j); [destruct IH as (?&?&?); [lia|]|];
          repeat split; try lia; auto.
    + specialize (IH (Some q) (cur + 1) cpi k Hk). cbv zeta in IH.
      fold (allocated_parts rest).
      destruct (allocated_parts rest !! Z.to_nat (k - cpi));
        [destruct IH as (?&?&?)|]; repeat split; try lia; auto.
Qed.

Lemma allocated_parts_lookup l (j : nat) p :
  allocated_parts l !! j = Some p -> TSKVsPartIsAllocated p = true.
Proof.
  intros H. apply list_elem_of_lookup_2, list_elem_of_In in H.
  apply filter_In in H. tauto.
Qed.

(** X14. A location [/p<N>] with [1 <= N], alone, selects the N-th allocated
    part of the volume and returns it with the partition index [N - 1]; it
    selects nothing when the volume has fewer than N allocated parts. *)
Theorem GetTSKVsPartByPathSpec_by_location
    (tsk_volume : Volume_Info) (path_spec : PathSpec) (l : string) (n : Z) :
  part_index path_spec = None ->
  start_offset path_spec = None ->
  location path_spec = Some l ->
  startswith l "/p" = true ->
  int10 (string_drop 2 l) = Some n ->
  1 <= n ->
  GetTSKVsPartByPathSpec tsk_volume path_spec =
  match allocated_parts (parts tsk_volume) !! Z.to_nat (n - 1) with
  | Some p => (Some p, Some (n - 1))
  | None => (None, None)
  end.
Proof.
  intros Hpart Hoff Hloc Hprefix Hint Hn.
  unfold GetTSKVsPartByPathSpec, parse_location.
  rewrite Hpart, Hoff, Hloc, Hprefix, Hint.
  destruct (Z.ltb_spec (n - 1) 0); [lia|]. cbv iota beta.
  rewrite andb_false_r.
  destruct (Z.ltb_spec 0 (len (parts tsk_volume))) as [Hpos|Hzero].
  - pose proof (find_part_by_partition_index
                  (TSKVolumeGetBytesPerSector tsk_volume) (parts tsk_volume)
                  None 0 0 (n - 1)) as Hfind.
    cbv zeta in Hfind. rewrite Z.sub_0_r in Hfind.
    destruct (allocated_parts (parts tsk_volume) !! Z.to_nat (n - 1))
      as [p|] eqn:Hp.
    + destruct Hfind as (Hv & Hk & Hcur); [lia|].
      rewrite Hv, Hk, (allocated_parts_lookup _ _ _ Hp).
      destruct (Z.leb_spec (len (parts tsk_volume))
                  (current_part_index
                     (find_part (Some (n - 1)) None None
                        (TSKVolumeGetBytesPerSector tsk_volume)
                        (parts tsk_volume) (mkLoop None 0 0)))); [lia|].
      reflexivity.
    + specialize (Hfind ltac:(lia)).
      destruct (tsk_vs_part _); [|reflexivity].
      rewrite Hfind.
      destruct (Z.leb_spec (len (parts tsk_volume))
                  (0 + len (parts tsk_volume))); [reflexivity|lia].
  - assert (Hnil : parts tsk_volume = []).
    { apply len_zero_nil. pose proof (len_nonneg (parts tsk_volume)). lia. }
    rewrite Hnil. reflexivity.
Qed.

Lemma find_part_by_start_offset partition_index bps offset l :
  (forall k, partition_index = Some k -> k < 0) ->
  forall v cur cpi,
    0 <= cpi ->
    let s' := find_part partition_index None (Some offset) bps l
                (mkLoop v cur cpi) in
    match List.find (starts_at bps offset) l with
    | Some p =>
        tsk_vs_part s' = Some p /\ cur <= current_part_index s' < cur + len l
    | None => current_part_index s' = cur + len l
    end.
Proof.
  intros Hneg. induction l as [|q rest IH]; intros v cur cpi Hcpi; cbv zeta.
  - simpl. unfold len. simpl. lia.
  - rewrite find_part_cons. cbv zeta.
    simpl current_part_index. simpl current_partition_index.
    assert (Hno : is_some_eq partition_index cpi = false).
    { destruct partition_index as [k|]; [|reflexivity]. simpl.
      apply Z.eqb_neq. specialize (Hneg k eq_refl). lia. }
    rewrite Hno, andb_false_r. simpl is_some_eq.
    assert (Hlen : len (q :: rest) = 1 + len rest) by (unfold len; simpl; lia).
    pose proof (len_nonneg rest) as Hrest.
    simpl List.find.
    destruct (starts_at bps offset q); [simpl; repeat split; lia|].
    specialize (IH (Some q) (cur + 1)
                  (if TSKVsPartIsAllocated q then cpi + 1 else cpi)).
    cbv zeta in IH.
    destruct (List.find (starts_at bps offset) rest);
      [destruct IH as (?&?); [destruct (TSKVsPartIsAllocated q); lia|]|];
      repeat split; try lia; auto.
    rewrite IH; [lia|]. destruct (TSKVsPartIsAllocated q); lia.
Qed.

(** X15. A start offset, without a part index and without a location that
    names a partition, selects the first part of the volume that starts at
    that byte offset, and nothing when no part starts there. *)
Theorem GetTSKVsPartByPathSpec_by_start_offset
    (tsk_volume : Volume_Info) (path_spec : PathSpec) (offset : Z) :
  part_index path_spec = None ->
  names_partition (location path_spec) = false ->
  start_offset path_spec = Some offset ->
  fst (GetTSKVsPartByPathSpec tsk_volume path_spec) =
  List.find (starts_at (TSKVolumeGetBytesPerSector tsk_volume) offset)
    (parts tsk_volume).
Proof.
  intros Hpart Hloc Hoff. unfold GetTSKVsPartByPathSpec.
  rewrite Hpart, Hoff.
  assert (Hneg : forall k,
            fst (parse_location (location path_spec)) = Some k -> k < 0).
  { unfold names_partition, parse_location in *.
    destruct (location path_spec) as [l|]; [|discriminate].
    destruct (startswith l "/p"); [|discriminate].
    destruct (int10 (string_drop 2 l)) as [n|]; [|discriminate].
    rewrite andb_true_l in Hloc. apply Z.leb_gt in Hloc.
    destruct (Z.ltb_spec (n - 1) 0); simpl; intros k [= <-]; lia. }
  pose proof (parse_location_no_partition _ Hloc) as Hnone.
  destruct (parse_location (location path_spec)) as [partition_index l].
  simpl in Hneg, Hnone. subst l. cbv iota beta. rewrite andb_false_r.
  destruct (Z.ltb_spec 0 (len (parts tsk_volume))) as [Hpos|Hzero].
  - pose proof (find_part_by_start_offset partition_index
                  (TSKVolumeGetBytesPerSector tsk_volume) offset
                  (parts tsk_volume) Hneg None 0 0 ltac:(lia)) as H.
    cbv zeta in H.
    destruct (List.find _ (parts tsk_volume)) as [p|].
    + destruct H as (Hv & Hcur). rewrite Hv.
      destruct (Z.leb_spec (len (parts tsk_volume))
                  (current_part_index
                     (find_part partition_index None (Some offset)
                        (TSKVolumeGetBytesPerSector tsk_volume)
                        (parts tsk_volume) (mkLoop None 0 0)))); [lia|].
      destruct (negb _); reflexivity.
    + destruct (tsk_vs_part _); [|reflexivity]. rewrite H.
      destruct (Z.leb_spec (len (parts tsk_volume))
                  (0 + len (parts tsk_volume))); [reflexivity|lia].
  - assert (Hnil : parts tsk_volume = []).
    { apply len_zero_nil. pose proof (len_nonneg (parts tsk_volume)). lia. }
    rewrite Hnil. reflexivity.
Qed.

End TskProperties.

(** ** The properties at work on the sample data *)

Section Instances.
Import Samples.
#[local] Existing Instance ascii_text.



(** The decrypter of the tests: CBC with the key and the initialization
    vector. *)
Example sample_decrypter_init :
  AESDecrypter.__init__ (CL := sample_library) (Some ENCRYPTION_MODE_CBC)
    (Some sample_iv) (Some sample_key) = Ret sample_decrypter.
Proof. reflexivity. Qed.

(** testInitialization: no argument, an unknown mode, CBC without an
    initialization vector, ECB without one, and an initialization vector of
    the wrong size. *)
Example testInitialization :
  AESDecrypter.__init__ (CL := sample_library) None None None
    = Raise ValueError /\
  AESDecrypter.__init__ (CL := sample_library)
    (Some (ENCRYPTION_MODE_OTHER "bogus")) None (Some sample_key)
    = Raise ValueError /\
  AESDecrypter.__init__ (CL := sample_library) (Some ENCRYPTION_MODE_CBC)
    None (Some sample_key) = Raise ValueError /\
  AESDecrypter.__init__ (CL := sample_library) (Some ENCRYPTION_MODE_ECB)
    None (Some sample_key) = Ret sample_decrypter /\
  AESDecrypter.__init__ (CL := sample_library) (Some ENCRYPTION_MODE_CBC)
    (Some (list_byte_of_string "Wrong IV size")) (Some sample_key)
    = Raise ValueError.
Proof. repeat split. Qed.

(** C9 as stated fails: a key of 14 bytes is there, the mode is ECB, and
    yet the constructor raises [ValueError], the error of the cipher
    library for a key of the wrong size (testInitialization expects it). *)
Lemma AESDecrypter_init_rejects_key_of_wrong_size :
  ~ (AESDecrypter.__init__ (CL := sample_library) (Some ENCRYPTION_MODE_ECB)
       None (Some (list_byte_of_string "Wrong key size")) = Raise ValueError
     <->
     AESDecrypter.argument_missing (Some ENCRYPTION_MODE_ECB) None
       (Some (list_byte_of_string "Wrong key size")) = true).
Proof. intros [H _]. specialize (H eq_refl). discriminate H. Qed.

(** The 23 bytes of testDecrypt: none is decrypted, all are held back,
    where the test expects 16 bytes decrypted and 7 held back. *)
Lemma Decrypt_block_size_in_bits_witness :
  AESDecrypter.Decrypt sample_decrypter (take 23 sample_buffer) =
    Ret (([], list_byte_of_string "0123456789abcdef0123456"),
         sample_decrypter).
Proof.
  exact (proj1 (Decrypt_block_size_in_bits (CL := sample_library)
                  sample_decrypter (take 23 sample_buffer) eq_refl)).
Defined.

(** One whole block of 16 bytes is held back too. *)
Example Decrypt_holds_back_whole_block :
  AESDecrypter.Decrypt sample_decrypter (take 16 sample_buffer) =
    Ret (([], list_byte_of_string "0123456789abcdef"), sample_decrypter).
Proof. reflexivity. Qed.


Example find_a_b_init :
  FindSpec.__init__ (RE := literal_engine) None (Some true)
    (Some (FindSpec.LocationList ["a"; "b"]%string)) None false = Ret find_a_b.
Proof. reflexivity. Qed.

Example find_malformed_init :
  FindSpec.__init__ (RE := literal_engine) None (Some true) None
    (Some (FindSpec.LocationList ["("; "b"]%string)) true = Ret find_malformed.
Proof. reflexivity. Qed.

(** The searcher over [/], [/a], [/a/b], [/c] with location [a, b] yields
    the path specification of [b] and nothing else; the find specification
    is at its maximum depth at depth 2 only. *)
Example Find_a_b :
  fst (FileSystemSearcher.Find (sample_searcher root) (Some [find_a_b])) =
  mkRun [path_spec file_b] None.
Proof. reflexivity. Qed.

Example AtMaximumDepth_a_b :
  map (FindSpec.AtMaximumDepth
         (FindSpec.Initialize find_a_b (sample_file_system root)))
      [0; 1; 2; 3] = [false; false; true; false].
Proof. reflexivity. Qed.

(** [Find([])] yields every allocated file entry, and goes on past a
    directory that cannot be listed. *)
Example Find_empty_list_sample :
  yielded (fst (FileSystemSearcher.Find (RE := literal_engine)
                  (sample_searcher root) (Some []))) =
    map path_spec [root; dir_a; file_b; file_c] /\
  fst (FileSystemSearcher.Find (RE := literal_engine)
         (sample_searcher root_denied) (Some [])) =
    mkRun (map path_spec [root_denied; dir_a_denied; file_c]) None.
Proof. split; reflexivity. Qed.

(** Another error of the enumeration is not caught: it ends the search. *)
Example Find_propagates_other_errors :
  fst (FileSystemSearcher.Find (RE := literal_engine)
         (sample_searcher root_broken) (Some [])) =
    mkRun (map path_spec [root_broken; dir_a_broken]) (Some BackEndError).
Proof. reflexivity. Qed.

Example find_too_large_init :
  FindSpec.__init__ (RE := literal_engine) None (Some true) None
    (Some (FindSpec.LocationList ["a{4294967296}"; "b"]%string)) true
  = Ret find_too_large.
Proof. reflexivity. Qed.

Lemma find_a_b_well_formed :
  FindSpec.well_formed
    (FindSpec.Initialize find_a_b (sample_file_system root)).
Proof.
  exists [FindSpec.SegStr "a"; FindSpec.SegStr "b"].
  split; [reflexivity|]. split; [reflexivity|].
  intros _. repeat constructor.
Qed.

(** [/a] at depth 1 bears the name of the first segment and does not
    match. *)
Lemma Matches_only_at_segment_count_witness :
  fst (FindSpec.Matches
         (FindSpec.Initialize find_a_b (sample_file_system root)) dir_a 1)
  = Ret false.
Proof.
  refine (proj2 (proj2 (Matches_only_at_segment_count (RE := literal_engine)
                          (FindSpec.Initialize find_a_b
                             (sample_file_system root))
                          [FindSpec.SegStr "a"; FindSpec.SegStr "b"]
                          dir_a 1 eq_refl)) _ _ _).
  - discriminate.
  - exact find_a_b_well_formed.
  - reflexivity.
Defined.

(** C4 as stated fails: [FindSpec(location_regex=['a{4294967296}', 'b'])],
    initialized, has two segments; at depth 1 [Matches] compiles the first
    one, and [re.compile] raises [OverflowError] for its repeat count, so
    that [Matches] raises where the claim has it return [False]. *)
Lemma Matches_raises_off_segment_count :
  FindSpec.ready (FindSpec.Initialize find_too_large (sample_file_system root))
  /\
  FindSpec._number_of_location_segments
    (FindSpec.Initialize find_too_large (sample_file_system root)) = 2 /\
  fst (FindSpec.Matches
         (FindSpec.Initialize find_too_large (sample_file_system root))
         dir_a 1)
  = Raise OverflowError.
Proof.
  split; [|split; reflexivity].
  apply (FindSpec.ready_Initialize None (Some true) None
           (Some (FindSpec.LocationList ["a{4294967296}"; "b"]%string)) true).
  - reflexivity.
  - right. discriminate.
Qed.

(** One list given as the location of a find specification that is not
    case sensitive and as the location_regex of another: [Matches] of the
    second stores the pattern of the first segment in the list, and
    [Matches] of the first then finds a pattern where it lower-cases text,
    and raises [AttributeError] at depth 1. *)
Example Matches_on_shared_segment_list :
  FindSpec._location_segments
    (snd (FindSpec.Matches
            (FindSpec.Initialize find_regex_a_b (sample_file_system root))
            dir_a 1))
  = Some [FindSpec.SegPat (RE := literal_engine)
            ("^a$"%string, FindSpec.regex_flags find_regex_a_b);
          FindSpec.SegStr "b"] /\
  fst (FindSpec.Matches
         (FindSpec.set_location_segments
            (FindSpec.Initialize find_a_b (sample_file_system root))
            (FindSpec._location_segments
               (snd (FindSpec.Matches
                       (FindSpec.Initialize find_regex_a_b
                          (sample_file_system root))
                       dir_a 1))))
         dir_a 1)
  = Raise AttributeError.
Proof. split; reflexivity. Qed.



(** Listing [/a] is denied after [/a/b] was enumerated: the search for
    location [a, b] runs as over the tree where the enumeration of [/a]
    ends after [/a/b]; it yields [/a/b] and goes on to [/c]. *)
Lemma AccessError_ends_enumeration_witness :
  FileSystemSearcher._FindInFileEntry root_cut_short [0%nat] 0
    [FindSpec.Initialize find_a_b (sample_file_system root)] =
  FileSystemSearcher._FindInFileEntry root [0%nat] 0
    [FindSpec.Initialize find_a_b (sample_file_system root)] /\
  ending (fst (FileSystemSearcher._FindInFileEntry root_cut_short [0%nat] 0
                 [FindSpec.Initialize find_a_b (sample_file_system root)]))
    <> Some AccessError.
Proof.
  apply (AccessError_ends_enumeration (RE := literal_engine)).
  apply (FileSystemSearcher.denied_below root_cut_short root
           [] dir_a_cut_short dir_a [file_c]).
  - repeat split.
  - reflexivity.
  - reflexivity.
  - reflexivity.
  - apply FileSystemSearcher.denied_here.
    + repeat split.
    + reflexivity.
    + reflexivity.
    + reflexivity.
Defined.

Example search_over_denied_directory :
  fst (FileSystemSearcher._FindInFileEntry root_cut_short [0%nat] 0
         [FindSpec.Initialize find_a_b (sample_file_system root)]) =
    mkRun [path_spec file_b] None /\
  fst (FileSystemSearcher._FindInFileEntry (RE := literal_engine) root_denied
         [0%nat] 0 [FindSpec.mk None (Some true) true None None None None 0]) =
    mkRun (map path_spec [root_denied; dir_a_denied; file_c]) None.
Proof. split; reflexivity. Qed.

(** [/p1] selects the first allocated partition; [/p0] selects nothing. *)
Example GetTSKVsPartByPathSpec_p1 :
  tsk_partition.GetTSKVsPartByPathSpec (PB := decimal_builtins)
    (TSK := sample_pytsk3) sample_volume
    (mkPathSpec (Some "/p1"%string) None None) =
  (Some (tsk_partition.mkPart (Some 1) (Some 1) (Some 350)), Some 0).
Proof. reflexivity. Qed.

Lemma GetTSKVsPartByPathSpec_without_selector_witness :
  tsk_partition.GetTSKVsPartByPathSpec (PB := decimal_builtins)
    (TSK := sample_pytsk3) sample_volume
    (mkPathSpec (Some "/p0"%string) None None) = (None, None).
Proof.
  apply (GetTSKVsPartByPathSpec_without_selector (PB := decimal_builtins)
           (TSK := sample_pytsk3)); reflexivity.
Defined.

(** *** Further instances *)

(** [/a/b] at depth 2 matches location [a, b]. *)
Lemma Matches_with_location_witness :
  fst (FindSpec.Matches
         (FindSpec.Initialize find_a_b (sample_file_system root)) file_b 2)
  = Ret true.
Proof.
  rewrite (Matches_with_location (RE := literal_engine) _
             [FindSpec.SegStr "a"; FindSpec.SegStr "b"] file_b 2).
  - reflexivity.
  - exact find_a_b_well_formed.
  - reflexivity.
Defined.

(** The default search over the tree where listing [/a] is denied. *)
Lemma search_without_location_witness :
  FileSystemSearcher._FindInFileEntry (RE := literal_engine) root_denied
    [0%nat] 0 [FindSpec.mk None (Some true) true None None None None 0] =
  (mkRun (map path_spec [root_denied; dir_a_denied; file_c]) None,
   [FindSpec.mk None (Some true) true None None None None 0]).
Proof.
  rewrite (search_without_location (RE := literal_engine)).
  - reflexivity.
  - repeat constructor.
  - repeat constructor.
Defined.

Lemma Find_empty_list_yields_allocated_witness :
  fst (FileSystemSearcher.Find (RE := literal_engine) (sample_searcher root)
         (Some [])) =
  mkRun (map path_spec [root; dir_a; file_b; file_c]) None.
Proof.
  rewrite (Find_empty_list_yields_allocated (RE := literal_engine)
             (sample_searcher root) root).
  - reflexivity.
  - reflexivity.
  - repeat constructor.
Defined.

(** At depth 2 location [a, b] is at its maximum depth: what is below [b],
    and that listing it fails, plays no role. *)
Lemma search_stops_at_maximum_depth_witness :
  FileSystemSearcher._FindInFileEntry file_b [0%nat] 2
    [FindSpec.Initialize find_a_b (sample_file_system root)] =
  FileSystemSearcher._FindInFileEntry
    (entry "b" false true [file_c] (Some BackEndError)) [0%nat] 2
    [FindSpec.Initialize find_a_b (sample_file_system root)].
Proof.
  apply (search_stops_at_maximum_depth (RE := literal_engine)).
  - constructor; [|constructor]. intros s0 H. injection H as <-. reflexivity.
  - repeat split.
Defined.

(** At depth 1 a directory of another name is searched like [/a]. *)
Lemma search_ignores_entries_above_last_segment_witness :
  FileSystemSearcher._FindInFileEntry dir_a [0%nat] 1
    [FindSpec.Initialize find_a_b (sample_file_system root)] =
  FileSystemSearcher._FindInFileEntry
    (entry "other" true false [file_b] None) [0%nat] 1
    [FindSpec.Initialize find_a_b (sample_file_system root)].
Proof.
  apply (search_ignores_entries_above_last_segment (RE := literal_engine)).
  - constructor; [|constructor]. intros s0 H. injection H as <-. split.
    + apply (FindSpec.ready_Initialize None (Some true)
               (Some (FindSpec.LocationList ["a"; "b"]%string)) None false).
      * reflexivity.
      * left. discriminate.
    + discriminate.
  - reflexivity.
  - reflexivity.
Defined.

(** Location [a, b] over [/], [/a], [/a/b], [/c]: the one file entry two
    levels down that is named [b]. *)
Lemma search_with_one_location_witness :
  exists s',
    FileSystemSearcher._FindInFileEntry root [0%nat] 0
      [FindSpec.Initialize find_a_b (sample_file_system root)] =
    (mkRun [path_spec file_b] None, [s']).
Proof.
  destruct (search_with_one_location (RE := literal_engine)
              (FindSpec.Initialize find_a_b (sample_file_system root))
              [FindSpec.SegStr "a"; FindSpec.SegStr "b"] root) as (s' & H & _).
  - exact find_a_b_well_formed.
  - reflexivity.
  - intros d _. unfold FindSpec.compile_raises_at.
    destruct (d <=? 0); [reflexivity|].
    destruct (_ !! _) as [[text|p]|]; reflexivity.
  - repeat constructor.
  - exists s'. exact H.
Defined.


(** The sample volume has three parts: part index 3 selects nothing, part
    index 1 the allocated partition, as does [/p1] and the byte offset
    512. *)
Lemma GetTSKVsPartByPathSpec_part_index_out_of_range_witness :
  tsk_partition.GetTSKVsPartByPathSpec (PB := decimal_builtins)
    (TSK := sample_pytsk3) sample_volume (mkPathSpec None (Some 3) None)
  = (None, None).
Proof.
  apply (GetTSKVsPartByPathSpec_part_index_out_of_range
           (PB := decimal_builtins) (TSK := sample_pytsk3) _ _ 3).
  - reflexivity.
  - right. discriminate.
Defined.

Lemma GetTSKVsPartByPathSpec_by_part_index_witness :
  tsk_partition.GetTSKVsPartByPathSpec (PB := decimal_builtins)
    (TSK := sample_pytsk3) sample_volume (mkPathSpec None (Some 1) None)
  = (Some (tsk_partition.mkPart (Some 1) (Some 1) (Some 350)), Some 1).
Proof.
  apply (GetTSKVsPartByPathSpec_by_part_index
           (PB := decimal_builtins) (TSK := sample_pytsk3) sample_volume
           (mkPathSpec None (Some 1) None) 1
           (tsk_partition.mkPart (Some 1) (Some 1) (Some 350)));
    try reflexivity.
  discriminate.
Defined.

Lemma GetTSKVsPartByPathSpec_by_location_witness :
  tsk_partition.GetTSKVsPartByPathSpec (PB := decimal_builtins)
    (TSK := sample_pytsk3) sample_volume
    (mkPathSpec (Some "/p1"%string) None None)
  = (Some (tsk_partition.mkPart (Some 1) (Some 1) (Some 350)), Some 0).
Proof.
  apply (GetTSKVsPartByPathSpec_by_location
           (PB := decimal_builtins) (TSK := sample_pytsk3) sample_volume
           (mkPathSpec (Some "/p1"%string) None None) "/p1" 1);
    reflexivity || discriminate.
Defined.

Lemma GetTSKVsPartByPathSpec_by_start_offset_witness :
  fst (tsk_partition.GetTSKVsPartByPathSpec (PB := decimal_builtins)
         (TSK := sample_pytsk3) sample_volume
         (mkPathSpec None None (Some 512)))
  = Some (tsk_partition.mkPart (Some 1) (Some 1) (Some 350)).
Proof.
  apply (GetTSKVsPartByPathSpec_by_start_offset
           (PB := decimal_builtins) (TSK := sample_pytsk3) sample_volume
           (mkPathSpec None None (Some 512)) 512); reflexivity.
Defined.

End Instances.
